(** * picom: configuration parsing helpers ([src/config.h])

    A shallow embedding of the option model and of the inline value parsers
    of [config.h] ([parse_backend], [parse_vsync],
    [parse_kawase_blur_strength]), together with models of the functions the
    header only declares ([set_default_winopts], [condlst_add],
    [parse_rule_opacity], [parse_config]).

    Conventions.
    - A C [int] is a [Z] in the range [INT_MIN .. INT_MAX]; signed overflow
      and out-of-bounds array reads are undefined behaviour, modelled as
      [None] in the result monad [M].
    - A [const char *] is the [string] of the bytes before the terminating
      NUL; the libc comparison functions read a NUL at the end of it and
      stop at the first NUL they meet.
    - [float] and [double] are IEEE-754 binary32 and binary64 values,
      [SpecFloat.spec_float].
    - [log_info], [log_warn] and [log_error] append a record to the log
      carried by [M]. *)

From Stdlib Require Import ZArith Lia Bool List Ascii String.
From Stdlib Require Import Floats.SpecFloat.
From stdpp Require Import base option list strings gmap.

Local Open Scope string_scope.
Local Open Scope list_scope.
Local Open Scope Z_scope.

(** ** Machine integers *)

Module CInt.

Definition INT_MIN : Z := - 2 ^ 31.
Definition INT_MAX : Z := 2 ^ 31 - 1.

Definition in_range (z : Z) : bool := (INT_MIN <=? z) && (z <=? INT_MAX).

(** Signed subtraction; overflow is undefined. *)
Definition sub (a b : Z) : option Z :=
  if in_range (a - b) then Some (a - b) else None.

End CInt.

(** ** Floating point literals *)

Module CFloat.

Definition float : Type := spec_float.
Definition double : Type := spec_float.

Definition of_Z32 (z : Z) : float := binary_normalize 24 128 z 0 false.

(** The binary32 value of the decimal literal [num / den]: both are exact in
    binary32 and the division rounds to nearest even, as the compiler does
    for a literal with the suffix [f]. The literals of the table without
    the suffix are doubles that binary32 holds exactly. *)
Definition lit32 (num den : Z) : float :=
  SFdiv 24 128 (of_Z32 num) (of_Z32 den).

(** The binary64 value [0.5]. *)
Definition half : double := S754_finite false 4503599627370496 (-53).

End CFloat.

(** ** Logging and undefined behaviour *)

Inductive log_level := LOG_INFO | LOG_WARN | LOG_ERROR.

Inductive log_arg :=
| arg_int (z : Z)
| arg_str (s : string)
| arg_float (f : CFloat.float).

Record log_msg := mk_log {
  log_lvl : log_level;
  log_fmt : string;
  log_args : list log_arg;
}.

(** A computation returns a value and the records it logged, or has
    undefined behaviour. *)
Definition M (A : Type) : Type := option (A * list log_msg).

Definition ret {A} (a : A) : M A := Some (a, []).

Definition bind {A B} (m : M A) (k : A -> M B) : M B :=
  match m with
  | None => None
  | Some (a, l1) =>
      match k a with
      | None => None
      | Some (b, l2) => Some (b, l1 ++ l2)
      end
  end.

Definition undefined {A} : M A := None.

Definition lift {A} (o : option A) : M A :=
  match o with Some a => ret a | None => undefined end.

Definition log (lvl : log_level) (fmt : string) (args : list log_arg) : M unit :=
  Some (tt, [mk_log lvl fmt args]).

Definition log_info := log LOG_INFO.
Definition log_warn := log LOG_WARN.
Definition log_error := log LOG_ERROR.

Notation "'let*' x ':=' m 'in' k" := (bind m (fun x => k))
  (at level 10, x name, m at level 100, k at level 200).

(** The value returned and the records logged. *)
Definition returns {A} (m : M A) (a : A) : Prop := exists l, m = Some (a, l).
Definition logged {A} (m : M A) : list log_msg :=
  match m with Some (_, l) => l | None => [] end.

(** Reading [a[i]] from an array of [length a] elements. *)
Definition array_get {A} (a : list A) (i : Z) : M A :=
  if (0 <=? i) && (i <? Z.of_nat (length a)) then lift (a !! Z.to_nat i)
  else undefined.

(** ** C strings *)

Module CString.

(** The byte as an [unsigned char]. *)
Definition uchar (c : ascii) : Z := Z.of_N (N_of_ascii c).

(** [tolower] of [ctype.h] in the C locale. *)
Definition tolower (c : Z) : Z :=
  if (65 <=? c) && (c <=? 90) then c + 32 else c.

(** No NUL inside: the string is the whole content of a C string. *)
Fixpoint nul_free (s : string) : bool :=
  match s with
  | EmptyString => true
  | String c r => negb (uchar c =? 0) && nul_free r
  end.

(** Byte-wise comparison after mapping each byte through [f]; the result
    is the difference of the first pair of bytes that differ. *)
Fixpoint bytes_cmp (f : Z -> Z) (s1 s2 : string) : Z :=
  match s1, s2 with
  | EmptyString, EmptyString => 0
  | EmptyString, String c2 _ => f 0 - f (uchar c2)
  | String c1 _, EmptyString => f (uchar c1) - f 0
  | String c1 r1, String c2 r2 =>
      let d := f (uchar c1) - f (uchar c2) in
      if d =? 0 then (if uchar c1 =? 0 then 0 else bytes_cmp f r1 r2) else d
  end.

Definition strcmp : string -> string -> Z := bytes_cmp (fun c => c).
Definition strcasecmp : string -> string -> Z := bytes_cmp tolower.

(** The string with every byte mapped through [tolower]. *)
Definition lower_char (c : ascii) : ascii :=
  ascii_of_N (Z.to_N (tolower (uchar c))).

Fixpoint strlower (s : string) : string :=
  match s with
  | EmptyString => EmptyString
  | String c r => String (lower_char c) (strlower r)
  end.

(** [s] and [t] differ in letter case only. *)
Definition case_variant (s t : string) : Prop := strlower s = strlower t.

End CString.

Import CString.

(** ** [parse_vsync] *)

Definition parse_vsync (str : string) : bool :=
  if (strcmp str "no" =? 0) || (strcmp str "none" =? 0) ||
     (strcmp str "false" =? 0) || (strcmp str "nah" =? 0)
  then false
  else true.

Definition vsync_negative_tokens : list string := ["no"; "none"; "false"; "nah"].

(** ** [blur_strength_t] and [parse_kawase_blur_strength] *)

Record blur_strength_t := mk_blur_strength {
  expand : Z;
  strength : Z;
  iterations : Z;
  offset : CFloat.float;
}.

Definition values : list blur_strength_t := [
  mk_blur_strength 10  1  1 (CFloat.lit32 15 10);          (* 1 *)
  mk_blur_strength 10  2  1 (CFloat.lit32 20 10);          (* 2 *)
  mk_blur_strength 20  3  2 (CFloat.lit32 25 10);          (* 3 *)
  mk_blur_strength 20  4  2 (CFloat.lit32 30 10);          (* 4 *)
  mk_blur_strength 50  5  3 (CFloat.lit32 275 100);        (* 5 *)
  mk_blur_strength 50  6  3 (CFloat.lit32 35 10);          (* 6 *)
  mk_blur_strength 50  7  3 (CFloat.lit32 425 100);        (* 7 *)
  mk_blur_strength 50  8  3 (CFloat.lit32 50 10);          (* 8 *)
  mk_blur_strength 150 9  4 (CFloat.lit32 371429 100000);  (* 9 *)
  mk_blur_strength 150 10 4 (CFloat.lit32 442857 100000);  (* 10 *)
  mk_blur_strength 150 11 4 (CFloat.lit32 514286 100000);  (* 11 *)
  mk_blur_strength 150 12 4 (CFloat.lit32 585714 100000);  (* 12 *)
  mk_blur_strength 150 13 4 (CFloat.lit32 657143 100000);  (* 13 *)
  mk_blur_strength 150 14 4 (CFloat.lit32 728571 100000);  (* 14 *)
  mk_blur_strength 150 15 4 (CFloat.lit32 80 10);          (* 15 *)
  mk_blur_strength 400 16 5 (CFloat.lit32 60 10);          (* 16 *)
  mk_blur_strength 400 17 5 (CFloat.lit32 70 10);          (* 17 *)
  mk_blur_strength 400 18 5 (CFloat.lit32 80 10);          (* 18 *)
  mk_blur_strength 400 19 5 (CFloat.lit32 90 10);          (* 19 *)
  mk_blur_strength 400 20 5 (CFloat.lit32 100 10)          (* 20 *)
].

(** The double quote character, for format strings. *)
Definition dquote : string := String (ascii_of_nat 34) EmptyString.

Definition blur_strength_error_fmt : string :=
  "(" ++ dquote ++ "%d" ++ dquote ++
  "): Invalid blur_strength argument. Needs to be a number between 1 and 20. Will default to 5".

Definition blur_strength_info_fmt : string :=
  "blur-strength: %d [.iter = %d, .offset = %f, .expand = %d]".

Definition parse_kawase_blur_strength (level : Z) : M blur_strength_t :=
  if (level <? 1) || (level >? 20) then
    let* _ := log_error blur_strength_error_fmt [arg_int level] in
    array_get values 5
  else
    let* i := lift (CInt.sub level 1) in
    let* v := array_get values i in
    let* _ := log_info blur_strength_info_fmt
                [arg_int level; arg_int (iterations v);
                 arg_float (offset v); arg_int (expand v)] in
    array_get values i.

(** ** [enum backend] and [parse_backend] *)

Definition BKEND_XRENDER : Z := 0.
Definition BKEND_GLX : Z := 1.
Definition BKEND_XR_GLX_HYBRID : Z := 2.
Definition BKEND_DUMMY : Z := 3.
Definition NUM_BKEND : Z := 4.

(** Modelled from the spec: the contents of [BACKEND_STRS], which the header
    declares [extern] and leaves to another file: an ordered, null-terminated
    list of canonical backend names, indexed by the backend enum. [None] is
    the NULL pointer. *)
Definition backend_table (names : list string) : list (option string) :=
  map Some names ++ [None].

(** A table of that shape, to run the parser on: the enum constants in lower
    case, the hybrid one spelled as the warnings of [parse_backend] say it
    should be. *)
Definition sample_backend_names : list string :=
  ["xrender"; "glx"; "xr_glx_hybrid"; "dummy"].

Definition hybird_warning : string :=
  "backend xr_glx_hybird should be xr_glx_hybrid, the misspelt version will be removed soon.".
Definition dashes_warning : string :=
  "backend xr-glx-hybrid should be xr_glx_hybrid, the alternative version will be removed soon.".
Definition invalid_backend_fmt : string := "Invalid backend argument: %s".

(** The [for] loop: [tbl] is the part of [BACKEND_STRS] from index [i] on.
    The result is the index of the first match, or [None] when the loop ran
    into the NULL entry. *)
Fixpoint parse_backend_loop (tbl : list (option string)) (i : Z) (str : string)
  : M (option Z) :=
  match tbl with
  | [] => undefined
  | None :: _ => ret None
  | Some name :: rest =>
      if strcasecmp str name =? 0 then ret (Some i)
      else parse_backend_loop rest (i + 1) str
  end.

Definition parse_backend (BACKEND_STRS : list (option string)) (str : string)
  : M Z :=
  let* r := parse_backend_loop BACKEND_STRS 0 str in
  match r with
  | Some i => ret i
  | None =>
      if strcasecmp str "xr_glx_hybird" =? 0 then
        let* _ := log_warn hybird_warning [] in
        ret BKEND_XR_GLX_HYBRID
      else if strcasecmp str "xr-glx-hybrid" =? 0 then
        let* _ := log_warn dashes_warning [] in
        ret BKEND_XR_GLX_HYBRID
      else
        let* _ := log_error invalid_backend_fmt [arg_str str] in
        ret NUM_BKEND
  end.

(** ** Window type options *)

Record win_option_mask_t := mk_win_option_mask {
  mask_shadow : bool;
  mask_fade : bool;
  mask_focus : bool;
  mask_full_shadow : bool;
  mask_redir_ignore : bool;
  mask_opacity : bool;
  mask_corner_radius : bool;
  mask_round_borders : bool;
}.

Record win_option_t := mk_win_option {
  shadow : bool;
  fade : bool;
  focus : bool;
  full_shadow : bool;
  redir_ignore : bool;
  opacity : CFloat.double;
  corner_radius : Z;
  round_borders : Z;
}.

(** The fields of [options_t] that the functions of this file read or
    write; [wintype_option] has [NUM_WINTYPES] elements. *)
Record options_t := mk_options {
  backend : Z;
  vsync : bool;
  blur_strength : blur_strength_t;
  wintype_option : list win_option_t;
}.

Definition set_wintype_option (opt : options_t) (w : list win_option_t)
  : options_t :=
  {| backend := backend opt; vsync := vsync opt;
     blur_strength := blur_strength opt; wintype_option := w |}.

Section SetDefaultWinopts.

(** The number of window types, from [win_defs.h]. *)
Variable NUM_WINTYPES : nat.

(** The values that stand for "no override" in the numeric fields. *)
Variable OPACITY_UNSET : CFloat.double.
Variable CORNER_RADIUS_UNSET : Z.
Variable ROUND_BORDERS_UNSET : Z.

(** Modelled from the spec: the resolution of one window type by
    [set_default_winopts], whose body is not in the header. A field whose
    mask bit is set keeps its value; otherwise [shadow] and [fade] take the
    global gates, the numeric overrides their "no override" values, and
    [focus], [full_shadow] and [redir_ignore] become [false]. *)
Definition default_winopt (m : win_option_mask_t)
    (shadow_enable fading_enable : bool) (o : win_option_t) : win_option_t :=
  {| shadow := if mask_shadow m then shadow o else shadow_enable;
     fade := if mask_fade m then fade o else fading_enable;
     focus := if mask_focus m then focus o else false;
     full_shadow := if mask_full_shadow m then full_shadow o else false;
     redir_ignore := if mask_redir_ignore m then redir_ignore o else false;
     opacity := if mask_opacity m then opacity o else OPACITY_UNSET;
     corner_radius :=
       if mask_corner_radius m then corner_radius o else CORNER_RADIUS_UNSET;
     round_borders :=
       if mask_round_borders m then round_borders o else ROUND_BORDERS_UNSET |}.

(** One turn of the loop over the window types: [wintype_option[i]] is
    resolved against [mask[i]]. *)
Definition resolve_wintype (mask : list win_option_mask_t)
    (shadow_enable fading_enable : bool)
    (w : list win_option_t) (i : nat) : list win_option_t :=
  match w !! i, mask !! i with
  | Some o, Some m => <[i := default_winopt m shadow_enable fading_enable o]> w
  | _, _ => w
  end.

(** Modelled from the spec: [set_default_winopts], declared in the header
    and defined elsewhere: for every window type and every overridable
    field, assign the computed default unless the mask bit is set. *)
Definition set_default_winopts (opt : options_t)
    (mask : list win_option_mask_t) (shadow_enable fading_enable : bool)
  : options_t :=
  set_wintype_option opt
    (fold_left (resolve_wintype mask shadow_enable fading_enable)
       (seq 0 NUM_WINTYPES) (wintype_option opt)).

End SetDefaultWinopts.

(** ** Condition lists *)

(** The two orders a list may keep its rules in. *)
Inductive insertion_order := First_parsed_first | Last_parsed_first.

Section ConditionLists.

(** The predicate grammar is external: a parsed pattern is a value of
    [c2_cond], and [c2_parse_pattern] is the grammar's parser. *)
Variable c2_cond : Type.
Variable c2_parse_pattern : string -> option c2_cond.

(** The two halves of a rule ["<pattern>:<opacity>"] and the parser of its
    opacity. *)
Variable split_rule : string -> option (string * string).
Variable parse_opacity : string -> option Z.

Variable order : insertion_order.

(** A node of a condition list: the pattern and the value attached to it. *)
Record c2_node := mk_c2_node {
  c2_pattern : c2_cond;
  c2_data : option Z;
}.

Definition c2_lptr_t : Type := list c2_node.

Definition c2_insert (n : c2_node) (l : c2_lptr_t) : c2_lptr_t :=
  match order with
  | Last_parsed_first => n :: l
  | First_parsed_first => l ++ [n]
  end.

(** Modelled from the spec: [condlst_add], declared in the header and
    defined elsewhere: parse the pattern with the external grammar and, on
    success, add a new node to the list; on a grammar error return failure
    and leave the list as it is. The result is the success flag and the
    list after the call. *)
Definition condlst_add (l : c2_lptr_t) (pattern : string) : bool * c2_lptr_t :=
  match c2_parse_pattern pattern with
  | Some c => (true, c2_insert (mk_c2_node c None) l)
  | None => (false, l)
  end.

(** Modelled from the spec: [parse_rule_opacity], declared in the header and
    defined elsewhere: parse both parts of ["<pattern>:<opacity>"] and, on
    success, store the pattern and the attached value in one node; on a
    parse failure in either part leave the list as it is. *)
Definition parse_rule_opacity (l : c2_lptr_t) (src : string) : bool * c2_lptr_t :=
  match split_rule src with
  | None => (false, l)
  | Some (pattern, value) =>
      match parse_opacity value with
      | None => (false, l)
      | Some v =>
          match c2_parse_pattern pattern with
          | None => (false, l)
          | Some c => (true, c2_insert (mk_c2_node c (Some v)) l)
          end
      end
  end.

(** Consecutive calls of [condlst_add] on one list: the flags of the calls
    and the list after the last one. *)
Fixpoint condlst_add_all (l : c2_lptr_t) (patterns : list string)
  : list bool * c2_lptr_t :=
  match patterns with
  | [] => ([], l)
  | p :: rest =>
      let (ok, l1) := condlst_add l p in
      let (oks, l2) := condlst_add_all l1 rest in
      (ok :: oks, l2)
  end.

End ConditionLists.

Arguments mk_c2_node {c2_cond}.
Arguments c2_pattern {c2_cond}.
Arguments c2_data {c2_cond}.

(** ** The configuration loader *)

(** The value of a field of the option record. *)
Inductive field_value :=
| FBool (b : bool)
| FInt (z : Z)
| FDouble (d : CFloat.double)
| FString (s : string).

(** The fields of [win_option_mask_t], to name one presence bit. *)
Inductive winopt_field :=
| WF_shadow | WF_fade | WF_focus | WF_full_shadow
| WF_redir_ignore | WF_opacity | WF_corner_radius | WF_round_borders.

Definition mask_bit (f : winopt_field) (m : win_option_mask_t) : bool :=
  match f with
  | WF_shadow => mask_shadow m
  | WF_fade => mask_fade m
  | WF_focus => mask_focus m
  | WF_full_shadow => mask_full_shadow m
  | WF_redir_ignore => mask_redir_ignore m
  | WF_opacity => mask_opacity m
  | WF_corner_radius => mask_corner_radius m
  | WF_round_borders => mask_round_borders m
  end.

Definition set_mask_bit (f : winopt_field) (m : win_option_mask_t)
  : win_option_mask_t :=
  {| mask_shadow := match f with WF_shadow => true | _ => mask_shadow m end;
     mask_fade := match f with WF_fade => true | _ => mask_fade m end;
     mask_focus := match f with WF_focus => true | _ => mask_focus m end;
     mask_full_shadow :=
       match f with WF_full_shadow => true | _ => mask_full_shadow m end;
     mask_redir_ignore :=
       match f with WF_redir_ignore => true | _ => mask_redir_ignore m end;
     mask_opacity := match f with WF_opacity => true | _ => mask_opacity m end;
     mask_corner_radius :=
       match f with WF_corner_radius => true | _ => mask_corner_radius m end;
     mask_round_borders :=
       match f with WF_round_borders => true | _ => mask_round_borders m end |}.

(** The bit of field [f] of window type [i] in a mask array. *)
Definition mask_bit_at (mask : list win_option_mask_t) (i : nat)
    (f : winopt_field) : bool :=
  match mask !! i with
  | Some m => mask_bit f m
  | None => false
  end.

(** What the loader works on: the fields of the option record by the key
    that sets them (the outputs [shadow_enable], [fading_enable] and
    [hasneg] among them), and the mask array [winopt_mask]. *)
Record load_state := mk_load_state {
  ld_fields : gmap string field_value;
  ld_mask : list win_option_mask_t;
}.

Definition malformed_value_fmt : string := "Invalid value for %s: %s".

Section ConfigLoader.

(** Whether the build has the file format. *)
Variable CONFIG_LIBCONFIG : bool.

(** The reader of the file format is external: it locates the file and
    returns the path used and the settings of the file in order, or [None]
    when there is no file. *)
Variable read_config : option string -> option (string * list (string * string)).

(** The keys the loader knows; the mask bit of a key of the per-window-type
    group; the fields without a mask bit that the command line has set; and
    the value parser of each key. *)
Variable recognized : string -> bool.
Variable key_bit : string -> option (nat * winopt_field).
Variable set_by_cli : string -> bool.
Variable parse_value : string -> string -> option field_value.

(** Whether the command line has set the field of [key]: by its bit in the
    mask the loader was called with, when it has one. *)
Definition cli_set (cli_mask : list win_option_mask_t) (key : string) : bool :=
  match key_bit key with
  | Some (i, f) => mask_bit_at cli_mask i f
  | None => set_by_cli key
  end.

(** Setting the mask bit of a key that is present in the file. *)
Definition mark_present (key : string) (mask : list win_option_mask_t)
  : list win_option_mask_t :=
  match key_bit key with
  | Some (i, f) => alter (set_mask_bit f) i mask
  | None => mask
  end.

(** Modelled from the spec: the treatment of one key of the file by the
    loader, whose body is not in the header. The mask bit of a recognized
    key that is present is set; a malformed or out-of-range value is logged
    and the field keeps its prior value; a well-formed value is assigned,
    unless the command line has set the field. *)
Definition load_setting (cli_mask : list win_option_mask_t)
    (st : load_state) (kv : string * string) : M load_state :=
  let (key, raw) := kv in
  if negb (recognized key) then ret st
  else
    let st1 := mk_load_state (ld_fields st) (mark_present key (ld_mask st)) in
    match parse_value key raw with
    | None =>
        let* _ := log_error malformed_value_fmt [arg_str key; arg_str raw] in
        ret st1
    | Some v =>
        if cli_set cli_mask key then ret st1
        else ret (mk_load_state (<[key := v]> (ld_fields st1)) (ld_mask st1))
    end.

Fixpoint load_settings (cli_mask : list win_option_mask_t)
    (settings : list (string * string)) (st : load_state) : M load_state :=
  match settings with
  | [] => ret st
  | kv :: rest =>
      let* st1 := load_setting cli_mask st kv in
      load_settings cli_mask rest st1
  end.

(** Modelled from the spec: [parse_config_libconfig], declared in the header
    and defined elsewhere: locate the file, parse the recognized keys into
    the fields, setting the mask bit of every key present, and return the
    path used, or NULL when no file was found. The file contributes only to
    fields the command line did not set. *)
Definition parse_config_libconfig (st : load_state) (config_file : option string)
  : M (option string * load_state) :=
  match read_config config_file with
  | None => ret (None, st)
  | Some (path, settings) =>
      let* st1 := load_settings (ld_mask st) settings st in
      ret (Some path, st1)
  end.

(** Modelled from the spec: [parse_config], declared in the header and
    defined elsewhere: the loader of the build with the file format, and a
    no-op returning NULL in a build without it. *)
Definition parse_config (st : load_state) (config_file : option string)
  : M (option string * load_state) :=
  if CONFIG_LIBCONFIG then parse_config_libconfig st config_file
  else ret (None, st).

End ConfigLoader.

(** ** Auxiliary definitions for the statements *)

(** The levels of the table. *)
Definition blur_levels : list Z := map Z.of_nat (seq 1 20).

(** The record logged for a level of the table, and for one outside. *)
Definition blur_info_record (level : Z) (v : blur_strength_t) : log_msg :=
  mk_log LOG_INFO blur_strength_info_fmt
    [arg_int level; arg_int (iterations v); arg_float (offset v);
     arg_int (expand v)].

Definition blur_error_record (level : Z) : log_msg :=
  mk_log LOG_ERROR blur_strength_error_fmt [arg_int level].

(** The tuple the lookup returns, when it returns. *)
Definition blur_result (level : Z) : option blur_strength_t :=
  match parse_kawase_blur_strength level with
  | Some (v, _) => Some v
  | None => None
  end.

(** A checker for the table: the tuple of [level] has that [strength], and
    [expand] and [iterations] are not larger than at any later level. *)
Definition blur_le_fields (v v' : blur_strength_t) : bool :=
  (expand v <=? expand v') && (iterations v <=? iterations v').

Definition blur_check_pair (level level' : Z) : bool :=
  match blur_result level, blur_result level' with
  | Some v, Some v' => negb (level <=? level') || blur_le_fields v v'
  | _, _ => false
  end.

Definition blur_check_level (level : Z) : bool :=
  match blur_result level with
  | Some v =>
      (strength v =? level) && forallb (blur_check_pair level) blur_levels
  | None => false
  end.

(** What the parser needs of the canonical names: one per enum value, each a
    C string, no two equal up to letter case, none a spelling of a legacy
    name. *)
Record backend_names_ok (names : list string) : Prop := {
  names_count : length names = Z.to_nat NUM_BKEND;
  names_cstr : forall n, In n names -> nul_free n = true;
  names_distinct : forall i j n m,
    names !! i = Some n -> names !! j = Some m -> case_variant n m -> i = j;
  names_not_legacy : forall n, In n names ->
    ~ case_variant n "xr_glx_hybird" /\ ~ case_variant n "xr-glx-hybrid";
}.

Section Resolved.

Variable OPACITY_UNSET : CFloat.double.
Variables CORNER_RADIUS_UNSET ROUND_BORDERS_UNSET : Z.
Variable mask : list win_option_mask_t.
Variables shadow_enable fading_enable : bool.

(** What the loop of [set_default_winopts] leaves at index [i] of [w],
    when it comes to that index. *)
Definition resolved_winopt (w : list win_option_t) (i : nat)
  : option win_option_t :=
  match w !! i, mask !! i with
  | Some o, Some m =>
      Some (default_winopt OPACITY_UNSET CORNER_RADIUS_UNSET
              ROUND_BORDERS_UNSET m shadow_enable fading_enable o)
  | _, _ => w !! i
  end.

End Resolved.

(** A setting to run the resolver on: fifteen window types, NaN and -1 as
    the "no override" values, the opacity of window type 3 set to 0.5. *)
Module WinoptSample.

Definition NUM_WINTYPES : nat := 15.
Definition OPACITY_UNSET : CFloat.double := S754_nan.
Definition CORNER_RADIUS_UNSET : Z := -1.
Definition ROUND_BORDERS_UNSET : Z := -1.

Definition zero_option : win_option_t :=
  mk_win_option false false false false false (S754_zero false) 0 0.
Definition half_opacity : win_option_t :=
  mk_win_option false false false false false CFloat.half 0 0.
Definition no_mask : win_option_mask_t :=
  mk_win_option_mask false false false false false false false false.
Definition opacity_mask : win_option_mask_t :=
  mk_win_option_mask false false false false false true false false.

Definition opt : options_t :=
  mk_options BKEND_XRENDER false (mk_blur_strength 0 0 0 (S754_zero false))
    (<[3%nat := half_opacity]> (replicate NUM_WINTYPES zero_option)).
Definition mask : list win_option_mask_t :=
  <[3%nat := opacity_mask]> (replicate NUM_WINTYPES no_mask).

Definition resolve : options_t -> list win_option_mask_t -> bool -> bool -> options_t :=
  set_default_winopts NUM_WINTYPES OPACITY_UNSET CORNER_RADIUS_UNSET
    ROUND_BORDERS_UNSET.

End WinoptSample.

(** The nodes that consecutive successful calls of [condlst_add] add to a
    list, as the list keeps them. *)
Definition condlst_added (c2_cond : Type) (order : insertion_order)
    (cs : list c2_cond) (l : c2_lptr_t c2_cond) : c2_lptr_t c2_cond :=
  match order with
  | First_parsed_first => l ++ map (fun c => mk_c2_node c None) cs
  | Last_parsed_first => rev (map (fun c => mk_c2_node c None) cs) ++ l
  end.

(** A grammar to run the list builder on: a pattern is well formed when it
    is not empty, an opacity is one of two numerals, and a rule is split at
    its first colon. *)
Module CondlstSample.

Definition c2_parse_pattern (p : string) : option string :=
  match p with
  | EmptyString => None
  | _ => Some p
  end.

Definition parse_opacity (v : string) : option Z :=
  if String.eqb v "50" then Some 50
  else if String.eqb v "100" then Some 100
  else None.

Fixpoint split_rule (src : string) : option (string * string) :=
  match src with
  | EmptyString => None
  | String c rest =>
      if Ascii.eqb c ":"%char then Some (EmptyString, rest)
      else
        match split_rule rest with
        | Some (p, v) => Some (String c p, v)
        | None => None
        end
  end.

End CondlstSample.

(** The record the loader logs for a malformed value. *)
Definition malformed_record (key raw : string) : log_msg :=
  mk_log LOG_ERROR malformed_value_fmt [arg_str key; arg_str raw].

Section LoaderEffects.

Variable recognized : string -> bool.
Variable key_bit : string -> option (nat * winopt_field).
Variable set_by_cli : string -> bool.
Variable parse_value : string -> string -> option field_value.
Variable cli_mask : list win_option_mask_t.

(** The field of [key] after the loader has treated the setting. *)
Definition loader_field_after (st : load_state) (key raw : string)
  : option field_value :=
  if recognized key then
    match parse_value key raw with
    | Some v =>
        if cli_set key_bit set_by_cli cli_mask key then ld_fields st !! key
        else Some v
    | None => ld_fields st !! key
    end
  else ld_fields st !! key.

(** What the loader logs for the setting. *)
Definition loader_setting_log (kv : string * string) : list log_msg :=
  if recognized kv.1 then
    match parse_value kv.1 kv.2 with
    | Some _ => []
    | None => [malformed_record kv.1 kv.2]
    end
  else [].

End LoaderEffects.

(** What the loader keeps of a state: the fields that are defined stay
    defined, and the mask bits that are set stay set. *)
Record step_effect (st st1 : load_state) : Prop := {
  fields_defined : forall k,
    is_Some (ld_fields st !! k) -> is_Some (ld_fields st1 !! k);
  mask_kept : forall i f,
    mask_bit_at (ld_mask st) i f = true -> mask_bit_at (ld_mask st1) i f = true;
}.

(** A loader to run: it knows the keys ["backend"] and ["vsync"], parsed by
    [parse_backend] on the sample table and by [parse_vsync], and the
    shadow and fade keys of window type 2; the file has a good ["vsync"], a
    bad ["backend"], and a shadow and a fade for window type 2, of which the
    command line has set the fade. *)
Module LoaderSample.

Definition shadow_key : string := "wintypes.dock.shadow".
Definition fade_key : string := "wintypes.dock.fade".

Definition recognized (key : string) : bool :=
  String.eqb key "backend" || String.eqb key "vsync" ||
  String.eqb key shadow_key || String.eqb key fade_key.

Definition key_bit (key : string) : option (nat * winopt_field) :=
  if String.eqb key shadow_key then Some (2%nat, WF_shadow)
  else if String.eqb key fade_key then Some (2%nat, WF_fade)
  else None.

Definition set_by_cli (key : string) : bool := false.

Definition parse_value (key raw : string) : option field_value :=
  if String.eqb key "backend" then
    match parse_backend (backend_table sample_backend_names) raw with
    | Some (b, _) => if b =? NUM_BKEND then None else Some (FInt b)
    | None => None
    end
  else Some (FBool (parse_vsync raw)).

Definition settings : list (string * string) :=
  [("vsync", "false"); ("backend", "opengl");
   (shadow_key, "true"); (fade_key, "true")].

Definition read_config (config_file : option string)
  : option (string * list (string * string)) :=
  Some ("picom.conf", settings).

Definition no_bits : win_option_mask_t :=
  mk_win_option_mask false false false false false false false false.
Definition fade_bit : win_option_mask_t :=
  mk_win_option_mask false true false false false false false false.

Definition st : load_state :=
  mk_load_state
    (<[fade_key := FBool false]> (<["backend" := FInt BKEND_XRENDER]> ∅))
    (<[2%nat := fade_bit]> (replicate 15 no_bits)).

End LoaderSample.

(** The value of a computation without its log, and the levels of the
    records it logged. *)
Definition value_of {A} (m : M A) : option A :=
  match m with
  | Some (a, _) => Some a
  | None => None
  end.

Definition logged_levels {A} (m : M A) : list log_level :=
  map log_lvl (logged m).

(** The record [parse_backend] logs for a string it rejects. *)
Definition invalid_backend_record (str : string) : log_msg :=
  mk_log LOG_ERROR invalid_backend_fmt [arg_str str].

(** Checkers for the tuples of the blur table: the ranges of the fields,
    with the offset a binary32 number between 1.5 and 10; and, for two
    levels in increasing order, that equal [iterations] come with equal
    [expand] and a larger offset, and larger [iterations] with a larger
    [expand]. *)
Definition blur_bounds_ok (v : blur_strength_t) : bool :=
  (1 <=? strength v) && (strength v <=? 20) &&
  (1 <=? iterations v) && (iterations v <=? 5) &&
  (10 <=? expand v) && (expand v <=? 400) &&
  valid_binary 24 128 (offset v) &&
  SFleb (CFloat.lit32 15 10) (offset v) &&
  SFleb (offset v) (CFloat.lit32 100 10).

Definition blur_group_ok (v v' : blur_strength_t) : bool :=
  if iterations v =? iterations v' then
    (expand v =? expand v') && SFltb (offset v) (offset v')
  else (iterations v <? iterations v') && (expand v <? expand v').

Definition blur_check_group (level level' : Z) : bool :=
  match blur_result level, blur_result level' with
  | Some v, Some v' => negb (level <? level') || blur_group_ok v v'
  | _, _ => false
  end.

(** ** Facts about machine integers *)

Module CIntFacts.

Lemma in_range_spec z :
  CInt.in_range z = true <-> CInt.INT_MIN <= z <= CInt.INT_MAX.
Proof. unfold CInt.in_range. rewrite andb_true_iff, !Z.leb_le. tauto. Qed.

Lemma sub_small a b :
  -1000 <= a <= 1000 -> -1000 <= b <= 1000 -> CInt.sub a b = Some (a - b).
Proof.
  intros Ha Hb. unfold CInt.sub.
  assert (CInt.in_range (a - b) = true) as ->; [|reflexivity].
  apply in_range_spec. unfold CInt.INT_MIN, CInt.INT_MAX. lia.
Qed.

End CIntFacts.

(** ** Facts about the string functions *)

Module CStringFacts.

Lemma uchar_range c : 0 <= uchar c < 256.
Proof.
  unfold uchar. pose proof (N_ascii_bounded c) as Hb. lia.
Qed.

Lemma uchar_inj a b : uchar a = uchar b -> a = b.
Proof.
  unfold uchar. intros H.
  rewrite <- (ascii_N_embedding a), <- (ascii_N_embedding b).
  f_equal. lia.
Qed.

Lemma tolower_range c : 0 <= c < 256 -> 0 <= tolower c < 256.
Proof.
  unfold tolower. intros Hc.
  destruct ((65 <=? c) && (c <=? 90)) eqn:E; [|lia].
  apply andb_true_iff in E as [E1 E2]. lia.
Qed.

Lemma tolower_zero c : 0 <= c -> tolower c = 0 -> c = 0.
Proof.
  unfold tolower. intros Hc.
  destruct ((65 <=? c) && (c <=? 90)) eqn:E; [|lia].
  apply andb_true_iff in E as [E1 E2]. lia.
Qed.

Lemma lower_char_uchar c : uchar (lower_char c) = tolower (uchar c).
Proof.
  unfold lower_char. pose proof (tolower_range _ (uchar_range c)) as Hr.
  unfold uchar at 1. rewrite N_ascii_embedding by lia. lia.
Qed.

Lemma lower_char_eq a b :
  lower_char a = lower_char b <-> tolower (uchar a) = tolower (uchar b).
Proof.
  rewrite <- !lower_char_uchar. split; [congruence | apply uchar_inj].
Qed.

Lemma strcmp_eq0 s t :
  nul_free s = true -> nul_free t = true -> strcmp s t = 0 <-> s = t.
Proof.
  unfold strcmp. revert t.
  induction s as [|c1 r1 IH]; intros [|c2 r2]; simpl; intros Hs Ht.
  - tauto.
  - apply andb_true_iff in Ht as [Hc _]. apply negb_true_iff, Z.eqb_neq in Hc.
    split; [lia | discriminate].
  - apply andb_true_iff in Hs as [Hc _]. apply negb_true_iff, Z.eqb_neq in Hc.
    split; [lia | discriminate].
  - apply andb_true_iff in Hs as [Hc1 Hs], Ht as [Hc2 Ht].
    apply negb_true_iff in Hc1. rewrite Hc1.
    destruct (uchar c1 - uchar c2 =? 0) eqn:E.
    + apply Z.eqb_eq in E. assert (c1 = c2) as -> by (apply uchar_inj; lia).
      rewrite IH by assumption. split; [congruence | intros [= ->]; reflexivity].
    + apply Z.eqb_neq in E. split; [lia | intros [= -> _]; lia].
Qed.

Lemma strcasecmp_eq0 s t :
  nul_free s = true -> nul_free t = true ->
  strcasecmp s t = 0 <-> strlower s = strlower t.
Proof.
  unfold strcasecmp. revert t.
  induction s as [|c1 r1 IH]; intros [|c2 r2]; simpl; intros Hs Ht.
  - tauto.
  - apply andb_true_iff in Ht as [Hc _]. apply negb_true_iff, Z.eqb_neq in Hc.
    pose proof (uchar_range c2) as Hr.
    pose proof (tolower_zero (uchar c2)) as Hz. change (tolower 0) with 0.
    split; [lia | discriminate].
  - apply andb_true_iff in Hs as [Hc _]. apply negb_true_iff, Z.eqb_neq in Hc.
    pose proof (uchar_range c1) as Hr.
    pose proof (tolower_zero (uchar c1)) as Hz. change (tolower 0) with 0.
    split; [lia | discriminate].
  - apply andb_true_iff in Hs as [Hc1 Hs], Ht as [Hc2 Ht].
    apply negb_true_iff in Hc1. rewrite Hc1.
    destruct (tolower (uchar c1) - tolower (uchar c2) =? 0) eqn:E.
    + apply Z.eqb_eq in E.
      assert (lower_char c1 = lower_char c2) as Hl by (apply lower_char_eq; lia).
      rewrite IH by assumption. rewrite Hl.
      split; [congruence | intros [= ->]; reflexivity].
    + apply Z.eqb_neq in E. split; [lia|].
      intros [= Hl _]. apply lower_char_eq in Hl. lia.
Qed.

End CStringFacts.

Import CStringFacts.

(** ** Properties of [parse_vsync] *)

(** C4. [parse_vsync] returns [false] exactly for the strings ["no"],
    ["none"], ["false"] and ["nah"], compared byte for byte; every other
    string gives [true], also one that differs from a token in letter case
    only, such as ["NO"] or ["False"]. *)
Theorem parse_vsync_false_iff (s : string) :
  nul_free s = true ->
  (parse_vsync s = false <-> In s vsync_negative_tokens) /\
  (~ In s vsync_negative_tokens -> parse_vsync s = true) /\
  (forall t, In t vsync_negative_tokens ->
     case_variant s t -> s <> t -> parse_vsync s = true) /\
  parse_vsync "NO" = true /\ parse_vsync "False" = true.
Proof.
  intros Hs.
  assert (parse_vsync s = false <-> In s vsync_negative_tokens) as Hiff.
  { unfold parse_vsync, vsync_negative_tokens. simpl.
    pose proof (strcmp_eq0 s "no" Hs eq_refl) as H1.
    pose proof (strcmp_eq0 s "none" Hs eq_refl) as H2.
    pose proof (strcmp_eq0 s "false" Hs eq_refl) as H3.
    pose proof (strcmp_eq0 s "nah" Hs eq_refl) as H4.
    destruct (strcmp s "no" =? 0) eqn:E1;
      [apply Z.eqb_eq in E1; simpl; intuition|apply Z.eqb_neq in E1].
    destruct (strcmp s "none" =? 0) eqn:E2;
      [apply Z.eqb_eq in E2; simpl; intuition|apply Z.eqb_neq in E2].
    destruct (strcmp s "false" =? 0) eqn:E3;
      [apply Z.eqb_eq in E3; simpl; intuition|apply Z.eqb_neq in E3].
    destruct (strcmp s "nah" =? 0) eqn:E4;
      [apply Z.eqb_eq in E4; simpl; intuition|apply Z.eqb_neq in E4].
    simpl. split; [discriminate|].
    intros [<-|[<-|[<-|[<-|[]]]]]; tauto. }
  assert (~ In s vsync_negative_tokens -> parse_vsync s = true) as Hother.
  { intros Hn. destruct (parse_vsync s) eqn:E; [reflexivity|].
    exfalso. apply Hn, Hiff. reflexivity. }
  split; [exact Hiff|]. split; [exact Hother|].
  split; [|split; reflexivity].
  intros t Ht Hcase Hne. apply Hother. intros Hin.
  unfold vsync_negative_tokens in Ht, Hin. simpl in Ht, Hin.
  destruct Hin as [<-|[<-|[<-|[<-|[]]]]];
    destruct Ht as [<-|[<-|[<-|[<-|[]]]]];
    solve [congruence | vm_compute in Hcase; discriminate].
Qed.

(** The theorem at the upper-case spelling ["NONE"]. *)
Lemma parse_vsync_false_iff_witness :
  nul_free "NONE" = true /\ parse_vsync "NONE" = true.
Proof.
  split; [reflexivity|].
  destruct (parse_vsync_false_iff "NONE" eq_refl) as (_ & _ & Hcase & _).
  apply (Hcase "none"); [simpl; tauto | reflexivity | discriminate].
Defined.

(** ** Properties of [parse_kawase_blur_strength] *)

Module BlurFacts.

Lemma in_levels level : 1 <= level <= 20 -> In level blur_levels.
Proof.
  intros H. unfold blur_levels. apply in_map_iff.
  exists (Z.to_nat level). split; [lia|]. apply in_seq. lia.
Qed.

Lemma values_length : length values = 20%nat.
Proof. reflexivity. Qed.

Lemma array_get_values i :
  0 <= i < 20 ->
  exists v, values !! Z.to_nat i = Some v /\ array_get values i = Some (v, []).
Proof.
  intros Hi. unfold array_get. rewrite values_length.
  assert ((0 <=? i) && (i <? Z.of_nat 20) = true) as ->.
  { apply andb_true_iff. split; [apply Z.leb_le | apply Z.ltb_lt]; lia. }
  destruct (lookup_lt_is_Some_2 values (Z.to_nat i)) as [v Hv].
  { rewrite values_length. lia. }
  exists v. rewrite Hv. split; reflexivity.
Qed.

Lemma parse_in_range level :
  1 <= level <= 20 ->
  exists v, values !! Z.to_nat (level - 1) = Some v /\
    parse_kawase_blur_strength level = Some (v, [blur_info_record level v]).
Proof.
  intros H. unfold parse_kawase_blur_strength.
  assert ((level <? 1) || (level >? 20) = false) as ->.
  { apply orb_false_iff. split; [apply Z.ltb_ge | rewrite Z.gtb_ltb; apply Z.ltb_ge]; lia. }
  rewrite CIntFacts.sub_small by lia.
  destruct (array_get_values (level - 1)) as (v & Hv & Hget); [lia|].
  exists v. split; [exact Hv|].
  simpl. rewrite Hget. reflexivity.
Qed.

Lemma parse_out_of_range level :
  level < 1 \/ 20 < level ->
  exists v, values !! 5%nat = Some v /\
    parse_kawase_blur_strength level = Some (v, [blur_error_record level]).
Proof.
  intros H. unfold parse_kawase_blur_strength.
  assert ((level <? 1) || (level >? 20) = true) as ->.
  { apply orb_true_iff. rewrite Z.gtb_ltb, !Z.ltb_lt. lia. }
  eexists. split; reflexivity.
Qed.

(** The fields of the tuples differ pairwise already in [strength]. *)
Lemma values_NoDup : List.NoDup values.
Proof.
  apply (NoDup_map_inv strength). vm_compute.
  repeat (constructor; [simpl; intuition discriminate|]). constructor.
Qed.

End BlurFacts.

(** C2. For every level from 1 to 20 the lookup returns the table entry at
    index [level - 1] (entry 0 for level 1, entry 19 for level 20) and logs
    no error; the 20 entries are pairwise distinct; for every level outside
    that range it returns the entry at index 5, which is the tuple of level
    6 and neither the first nor the last entry, and logs one error. *)
Theorem parse_kawase_blur_strength_lookup (level : Z) :
  (1 <= level <= 20 ->
     exists v, values !! Z.to_nat (level - 1) = Some v /\
       returns (parse_kawase_blur_strength level) v /\
       Forall (fun r => log_lvl r <> LOG_ERROR)
         (logged (parse_kawase_blur_strength level))) /\
  (level < 1 \/ 20 < level ->
     exists v, values !! 5%nat = Some v /\
       returns (parse_kawase_blur_strength level) v /\
       returns (parse_kawase_blur_strength 6) v /\
       values !! 0%nat <> Some v /\ values !! 19%nat <> Some v /\
       logged (parse_kawase_blur_strength level) =
         [mk_log LOG_ERROR blur_strength_error_fmt [arg_int level]]) /\
  length values = 20%nat /\ List.NoDup values /\
  (forall v1 v20, returns (parse_kawase_blur_strength 1) v1 ->
     returns (parse_kawase_blur_strength 20) v20 ->
     values !! 0%nat = Some v1 /\ values !! 19%nat = Some v20).
Proof.
  split; [|split; [|split; [|split]]].
  - intros H. destruct (BlurFacts.parse_in_range level H) as (v & Hv & Hp).
    exists v. split; [exact Hv|]. rewrite Hp. split; [eexists; reflexivity|].
    simpl. repeat constructor. discriminate.
  - intros H. destruct (BlurFacts.parse_out_of_range level H) as (v & Hv & Hp).
    exists v. split; [exact Hv|]. rewrite Hp.
    split; [eexists; reflexivity|].
    vm_compute in Hv. injection Hv as <-.
    split; [eexists; reflexivity|].
    split; [discriminate|]. split; [discriminate|]. reflexivity.
  - reflexivity.
  - exact BlurFacts.values_NoDup.
  - intros v1 v20 [l1 H1] [l20 H20].
    vm_compute in H1, H20. injection H1 as <- _. injection H20 as <- _.
    split; reflexivity.
Qed.

(** The lookup at level 21, one past the table. *)
Lemma parse_kawase_blur_strength_lookup_witness :
  exists v, values !! 5%nat = Some v /\
    returns (parse_kawase_blur_strength 21) v /\ strength v = 6.
Proof.
  destruct (parse_kawase_blur_strength_lookup 21) as (_ & Hout & _).
  destruct Hout as (v & Hv & Hr & _); [right; lia|].
  exists v. split; [exact Hv|]. split; [exact Hr|].
  vm_compute in Hv. injection Hv as <-. reflexivity.
Defined.

(** C8. The lookup is defined on every [int]: the index it reads is
    between 0 and 19, it is 5 together with an error record exactly when the
    level is outside 1..20 and [level - 1] otherwise, and the result is an
    entry of the table. *)
Theorem parse_kawase_blur_strength_total (level : Z) :
  CInt.in_range level = true ->
  exists v l i,
    parse_kawase_blur_strength level = Some (v, l) /\
    0 <= i <= 19 /\ values !! Z.to_nat i = Some v /\ In v values /\
    i = (if (1 <=? level) && (level <=? 20) then level - 1 else 5) /\
    ((exists r, In r l /\ log_lvl r = LOG_ERROR) <-> ~ 1 <= level <= 20) /\
    (~ 1 <= level <= 20 -> i = 5).
Proof.
  intros _.
  destruct (Z_lt_le_dec level 1) as [Hlo|Hlo];
    [|destruct (Z_lt_le_dec 20 level) as [Hhi|Hhi]].
  - destruct (BlurFacts.parse_out_of_range level) as (v & Hv & Hp); [lia|].
    exists v, [blur_error_record level], 5.
    assert ((1 <=? level) = false) as -> by (apply Z.leb_gt; lia).
    repeat split; try assumption; try lia.
    + apply list_elem_of_In, list_elem_of_lookup. eauto.
    + eexists. split; [left; reflexivity | reflexivity].
  - destruct (BlurFacts.parse_out_of_range level) as (v & Hv & Hp); [lia|].
    exists v, [blur_error_record level], 5.
    assert ((level <=? 20) = false) as -> by (apply Z.leb_gt; lia).
    rewrite andb_false_r.
    repeat split; try assumption; try lia.
    + apply list_elem_of_In, list_elem_of_lookup. eauto.
    + eexists. split; [left; reflexivity | reflexivity].
  - destruct (BlurFacts.parse_in_range level) as (v & Hv & Hp); [lia|].
    exists v, [blur_info_record level v], (level - 1).
    assert ((1 <=? level) && (level <=? 20) = true) as ->.
    { apply andb_true_iff. rewrite !Z.leb_le. lia. }
    repeat split; try assumption; try lia.
    + apply list_elem_of_In, list_elem_of_lookup. eauto.
    + intros (r & [<-|[]] & Hr). discriminate.
Qed.

(** The lookup at [INT_MIN], where [level - 1] would overflow. *)
Lemma parse_kawase_blur_strength_total_witness :
  CInt.in_range CInt.INT_MIN = true /\
  exists v, returns (parse_kawase_blur_strength CInt.INT_MIN) v /\ In v values.
Proof.
  split; [reflexivity|].
  destruct (parse_kawase_blur_strength_total CInt.INT_MIN eq_refl)
    as (v & l & i & Hp & _ & _ & Hin & _).
  exists v. split; [exists l; exact Hp | exact Hin].
Defined.

Module BlurTable.

Lemma check_levels : forallb blur_check_level blur_levels = true.
Proof. vm_compute. reflexivity. Qed.

Lemma result_returns level v :
  returns (parse_kawase_blur_strength level) v <-> blur_result level = Some v.
Proof.
  unfold returns, blur_result.
  destruct (parse_kawase_blur_strength level) as [[v0 l0]|].
  - split; [intros [l [= -> _]]; reflexivity | intros [= ->]; eauto].
  - split; [intros [l [=]] | discriminate].
Qed.

End BlurTable.

(** C9. For every level from 1 to 20 the tuple returned has that level as
    its [strength], and [expand] and [iterations] do not decrease when the
    level grows. *)
Theorem blur_table_strength_monotone (level : Z) :
  1 <= level <= 20 ->
  exists v, returns (parse_kawase_blur_strength level) v /\
    strength v = level /\
    forall level' v', level <= level' <= 20 ->
      returns (parse_kawase_blur_strength level') v' ->
      expand v <= expand v' /\ iterations v <= iterations v'.
Proof.
  intros H.
  pose proof BlurTable.check_levels as Hall.
  rewrite forallb_forall in Hall.
  specialize (Hall level (BlurFacts.in_levels level H)).
  unfold blur_check_level in Hall.
  destruct (blur_result level) as [v|] eqn:Hv; [|discriminate].
  apply andb_true_iff in Hall as [Hs Hpairs]. apply Z.eqb_eq in Hs.
  exists v. split; [apply BlurTable.result_returns; exact Hv|].
  split; [exact Hs|].
  intros level' v' H' Hv'. apply BlurTable.result_returns in Hv'.
  rewrite forallb_forall in Hpairs.
  specialize (Hpairs level' (BlurFacts.in_levels level' ltac:(lia))).
  unfold blur_check_pair in Hpairs. rewrite Hv, Hv' in Hpairs.
  apply orb_true_iff in Hpairs as [Hn|Hle].
  - apply negb_true_iff, Z.leb_gt in Hn. lia.
  - unfold blur_le_fields in Hle.
    apply andb_true_iff in Hle as [H1 H2]. rewrite !Z.leb_le in *. tauto.
Qed.

(** The table at level 8, the last one of its group. *)
Lemma blur_table_strength_monotone_witness :
  1 <= 8 <= 20 /\
  exists v, returns (parse_kawase_blur_strength 8) v /\ strength v = 8.
Proof.
  split; [lia|].
  destruct (blur_table_strength_monotone 8 ltac:(lia)) as (v & Hr & Hs & _).
  exists v. split; assumption.
Defined.

(** ** Properties of [parse_backend] *)

Module BackendFacts.

Lemma sample_backend_names_ok : backend_names_ok sample_backend_names.
Proof.
  split.
  - reflexivity.
  - intros n Hn. simpl in Hn.
    destruct Hn as [<-|[<-|[<-|[<-|[]]]]]; reflexivity.
  - intros i j n m Hi Hj.
    destruct i as [|[|[|[|i]]]]; simpl in Hi; try discriminate;
      injection Hi as <-;
      destruct j as [|[|[|[|j]]]]; simpl in Hj; try discriminate;
      injection Hj as <-; vm_compute; congruence.
  - intros n Hn. simpl in Hn.
    destruct Hn as [<-|[<-|[<-|[<-|[]]]]]; vm_compute; split; discriminate.
Qed.

(** The loop returns the index of a matching name with no match before it,
    or runs into the NULL entry when no name matches. *)
Lemma parse_backend_loop_spec (names : list string) (i : Z) (str : string) :
  exists r, parse_backend_loop (backend_table names) i str = ret r /\
    match r with
    | Some b =>
        exists k n, b = i + Z.of_nat k /\ names !! k = Some n /\
          strcasecmp str n = 0 /\
          forall j m, (j < k)%nat -> names !! j = Some m -> strcasecmp str m <> 0
    | None => forall m, In m names -> strcasecmp str m <> 0
    end.
Proof.
  revert i. induction names as [|n0 names IH]; intros i; simpl.
  - exists None. split; [reflexivity | intros m []].
  - destruct (strcasecmp str n0 =? 0) eqn:E.
    + apply Z.eqb_eq in E. exists (Some i). split; [reflexivity|].
      exists 0%nat, n0. repeat split; [lia | exact E | intros; lia].
    + apply Z.eqb_neq in E. destruct (IH (i + 1)) as (r & Hr & Hspec).
      exists r. split; [exact Hr|].
      destruct r as [b|].
      * destruct Hspec as (k & n & Hb & Hk & Hm & Hfirst).
        exists (S k), n. repeat split; [lia | exact Hk | exact Hm |].
        intros [|j] m Hj Hjm; simpl in Hjm.
        -- injection Hjm as <-. exact E.
        -- apply (Hfirst j m); [lia | exact Hjm].
      * intros m [<-|Hin]; [exact E | apply Hspec, Hin].
Qed.

Section WithNames.

Variable names : list string.
Hypothesis Hok : backend_names_ok names.

Let BACKEND_STRS := backend_table names.

Lemma lookup_names_In k n : names !! k = Some n -> In n names.
Proof. intros H. apply list_elem_of_In, list_elem_of_lookup. eauto. Qed.

(** A spelling of a canonical name gives the position of that name. *)
Lemma parse_backend_canonical k n str :
  nul_free str = true -> names !! k = Some n -> strcasecmp str n = 0 ->
  parse_backend BACKEND_STRS str = Some (Z.of_nat k, []).
Proof.
  intros Hs Hk Hm. unfold parse_backend, BACKEND_STRS.
  destruct (parse_backend_loop_spec names 0 str) as (r & Hr & Hspec).
  rewrite Hr. destruct r as [b|].
  - destruct Hspec as (k' & n' & -> & Hk' & Hm' & _).
    assert (k' = k) as ->.
    { apply (names_distinct _ Hok k' k n' n Hk' Hk).
      pose proof (names_cstr _ Hok n' (lookup_names_In _ _ Hk')).
      pose proof (names_cstr _ Hok n (lookup_names_In _ _ Hk)).
      apply strcasecmp_eq0 in Hm, Hm'; auto.
      unfold case_variant. congruence. }
    reflexivity.
  - exfalso. apply (Hspec n (lookup_names_In _ _ Hk) Hm).
Qed.

(** A string that is no spelling of a canonical name leaves the loop at the
    NULL entry. *)
Lemma parse_backend_loop_none str :
  (forall n, In n names -> strcasecmp str n <> 0) ->
  parse_backend_loop BACKEND_STRS 0 str = ret None.
Proof.
  intros Hno. unfold BACKEND_STRS.
  destruct (parse_backend_loop_spec names 0 str) as (r & Hr & Hspec).
  rewrite Hr. destruct r as [b|]; [|reflexivity].
  destruct Hspec as (k & n & _ & Hk & Hm & _).
  exfalso. apply (Hno n (lookup_names_In _ _ Hk) Hm).
Qed.

(** No spelling of a legacy name is a spelling of a canonical name. *)
Lemma legacy_not_canonical str n :
  nul_free str = true -> In n names ->
  strcasecmp str "xr_glx_hybird" = 0 \/ strcasecmp str "xr-glx-hybrid" = 0 ->
  strcasecmp str n <> 0.
Proof.
  intros Hs Hn Hleg Hm.
  pose proof (names_cstr _ Hok n Hn) as Hc.
  destruct (names_not_legacy _ Hok n Hn) as [H1 H2].
  apply strcasecmp_eq0 in Hm; auto.
  destruct Hleg as [Hl|Hl]; apply strcasecmp_eq0 in Hl; auto;
    unfold case_variant in *; congruence.
Qed.

Lemma parse_backend_legacy str :
  nul_free str = true ->
  strcasecmp str "xr_glx_hybird" = 0 \/ strcasecmp str "xr-glx-hybrid" = 0 ->
  exists w, (w = hybird_warning \/ w = dashes_warning) /\
    parse_backend BACKEND_STRS str =
      Some (BKEND_XR_GLX_HYBRID, [mk_log LOG_WARN w []]).
Proof.
  intros Hs Hleg. unfold parse_backend.
  rewrite parse_backend_loop_none
    by (intros n Hn; apply legacy_not_canonical; assumption).
  simpl.
  destruct (strcasecmp str "xr_glx_hybird" =? 0) eqn:E1.
  - exists hybird_warning. split; [left|]; reflexivity.
  - apply Z.eqb_neq in E1. destruct Hleg as [Hl|Hl]; [contradiction|].
    rewrite Hl. simpl. exists dashes_warning. split; [right|]; reflexivity.
Qed.

Lemma parse_backend_invalid str :
  (forall n, In n names -> strcasecmp str n <> 0) ->
  strcasecmp str "xr_glx_hybird" <> 0 -> strcasecmp str "xr-glx-hybrid" <> 0 ->
  parse_backend BACKEND_STRS str =
    Some (NUM_BKEND, [mk_log LOG_ERROR invalid_backend_fmt [arg_str str]]).
Proof.
  intros Hno H1 H2. unfold parse_backend.
  rewrite parse_backend_loop_none by assumption. simpl.
  apply Z.eqb_neq in H1, H2. rewrite H1, H2. reflexivity.
Qed.

(** The result is a backend or the sentinel. *)
Lemma parse_backend_bounds str :
  exists b l, parse_backend BACKEND_STRS str = Some (b, l) /\
    (0 <= b < NUM_BKEND \/ b = NUM_BKEND).
Proof.
  unfold parse_backend, BACKEND_STRS.
  destruct (parse_backend_loop_spec names 0 str) as (r & Hr & Hspec).
  rewrite Hr. destruct r as [b|]; simpl.
  - destruct Hspec as (k & n & -> & Hk & _).
    apply lookup_lt_Some in Hk. rewrite (names_count _ Hok) in Hk.
    eexists _, _. split; [reflexivity|]. left. unfold NUM_BKEND in *. lia.
  - destruct (strcasecmp str "xr_glx_hybird" =? 0);
      [|destruct (strcasecmp str "xr-glx-hybrid" =? 0)];
      eexists _, _; (split; [reflexivity|]);
      unfold BKEND_XR_GLX_HYBRID, NUM_BKEND; lia.
Qed.

End WithNames.

End BackendFacts.

(** C3, as the code has it. With a table of canonical names: a string that
    differs from a canonical name in letter case only gives the position of
    that name in the table and logs nothing; ["xr_glx_hybird"] and
    ["xr-glx-hybrid"] give [BKEND_XR_GLX_HYBRID] with a warning; a string
    that is a letter-case variant neither of a canonical name nor of one of
    these two spellings gives [NUM_BKEND] with an error record. *)
Theorem parse_backend_table (names : list string) (str : string) :
  backend_names_ok names -> nul_free str = true ->
  let BACKEND_STRS := backend_table names in
  (forall k n, names !! k = Some n -> case_variant str n ->
     parse_backend BACKEND_STRS str = Some (Z.of_nat k, [])) /\
  parse_backend BACKEND_STRS "xr_glx_hybird" =
    Some (BKEND_XR_GLX_HYBRID, [mk_log LOG_WARN hybird_warning []]) /\
  parse_backend BACKEND_STRS "xr-glx-hybrid" =
    Some (BKEND_XR_GLX_HYBRID, [mk_log LOG_WARN dashes_warning []]) /\
  ((forall n, In n names -> ~ case_variant str n) ->
   ~ case_variant str "xr_glx_hybird" -> ~ case_variant str "xr-glx-hybrid" ->
   parse_backend BACKEND_STRS str =
     Some (NUM_BKEND, [mk_log LOG_ERROR invalid_backend_fmt [arg_str str]])).
Proof.
  intros Hok Hs BACKEND_STRS. subst BACKEND_STRS.
  split; [|split; [|split]].
  - intros k n Hk Hv.
    apply (BackendFacts.parse_backend_canonical names Hok k n); auto.
    apply strcasecmp_eq0; auto.
    apply (names_cstr _ Hok), (BackendFacts.lookup_names_In _ _ _ Hk).
  - unfold parse_backend.
    rewrite BackendFacts.parse_backend_loop_none; [reflexivity|].
    intros n Hn. apply (BackendFacts.legacy_not_canonical names Hok); auto.
  - unfold parse_backend.
    rewrite BackendFacts.parse_backend_loop_none; [reflexivity|].
    intros n Hn. apply (BackendFacts.legacy_not_canonical names Hok); auto.
  - intros Hno H1 H2.
    apply BackendFacts.parse_backend_invalid.
    + intros n Hn Hm. apply (Hno n Hn). apply strcasecmp_eq0 in Hm; auto.
      apply (names_cstr _ Hok), Hn.
    + intros Hm. apply H1. apply strcasecmp_eq0 in Hm; auto.
    + intros Hm. apply H2. apply strcasecmp_eq0 in Hm; auto.
Qed.

(** The parser on ["Dummy"], with the sample table. *)
Lemma parse_backend_table_witness :
  backend_names_ok sample_backend_names /\ nul_free "Dummy" = true /\
  parse_backend (backend_table sample_backend_names) "Dummy" =
    Some (BKEND_DUMMY, []).
Proof.
  split; [exact BackendFacts.sample_backend_names_ok|].
  split; [reflexivity|].
  destruct (parse_backend_table sample_backend_names "Dummy"
              BackendFacts.sample_backend_names_ok eq_refl) as (Hcanon & _).
  apply (Hcanon 3%nat "dummy"); reflexivity.
Defined.

(** C3, as stated, fails: ["XR-GLX-HYBRID"] is no spelling of a canonical
    name of the sample table and is neither of the two legacy strings, yet
    the parser returns [BKEND_XR_GLX_HYBRID] with a warning, not
    [NUM_BKEND] with an error. *)
Lemma parse_backend_other_input_counterexample :
  let str := "XR-GLX-HYBRID" in
  let BACKEND_STRS := backend_table sample_backend_names in
  nul_free str = true /\
  (forall n, In n sample_backend_names -> ~ case_variant str n) /\
  str <> "xr_glx_hybird" /\ str <> "xr-glx-hybrid" /\
  parse_backend BACKEND_STRS str =
    Some (BKEND_XR_GLX_HYBRID, [mk_log LOG_WARN dashes_warning []]) /\
  ~ returns (parse_backend BACKEND_STRS str) NUM_BKEND.
Proof.
  simpl. split; [reflexivity|]. split.
  { intros n [<-|[<-|[<-|[<-|[]]]]]; vm_compute; discriminate. }
  split; [discriminate|]. split; [discriminate|].
  split; [reflexivity|].
  intros [l Hl]. vm_compute in Hl. discriminate.
Qed.

(** C10. A string that differs from ["xr_glx_hybird"] or from
    ["xr-glx-hybrid"] in letter case only gives [BKEND_XR_GLX_HYBRID], not
    [NUM_BKEND]; and on every string the parser returns a value below
    [NUM_BKEND] or [NUM_BKEND] itself. *)
Theorem parse_backend_legacy_any_case (names : list string) (str : string) :
  backend_names_ok names -> nul_free str = true ->
  let BACKEND_STRS := backend_table names in
  (case_variant str "xr_glx_hybird" \/ case_variant str "xr-glx-hybrid" ->
     returns (parse_backend BACKEND_STRS str) BKEND_XR_GLX_HYBRID /\
     ~ returns (parse_backend BACKEND_STRS str) NUM_BKEND) /\
  (exists b, returns (parse_backend BACKEND_STRS str) b /\
     (0 <= b < NUM_BKEND \/ b = NUM_BKEND)).
Proof.
  intros Hok Hs BACKEND_STRS. subst BACKEND_STRS. split.
  - intros Hleg.
    destruct (BackendFacts.parse_backend_legacy names Hok str Hs)
      as (w & _ & Hp).
    { destruct Hleg as [H|H]; [left|right]; apply strcasecmp_eq0; auto. }
    rewrite Hp. split; [eexists; reflexivity|].
    intros [l [=]].
  - destruct (BackendFacts.parse_backend_bounds names Hok str)
      as (b & l & Hp & Hb).
    exists b. split; [exists l; exact Hp | exact Hb].
Qed.

(** The parser on ["XR-GLX-HYBRID"], with the sample table. *)
Lemma parse_backend_legacy_any_case_witness :
  backend_names_ok sample_backend_names /\ nul_free "XR-GLX-HYBRID" = true /\
  case_variant "XR-GLX-HYBRID" "xr-glx-hybrid" /\
  returns (parse_backend (backend_table sample_backend_names) "XR-GLX-HYBRID")
    BKEND_XR_GLX_HYBRID.
Proof.
  split; [exact BackendFacts.sample_backend_names_ok|].
  split; [reflexivity|]. split; [reflexivity|].
  destruct (parse_backend_legacy_any_case sample_backend_names "XR-GLX-HYBRID"
              BackendFacts.sample_backend_names_ok eq_refl) as (Hleg & _).
  apply Hleg. right. reflexivity.
Defined.

(** ** Properties of [set_default_winopts] *)

Module WinoptFacts.

Section Resolve.

Variable NUM_WINTYPES : nat.
Variable OPACITY_UNSET : CFloat.double.
Variables CORNER_RADIUS_UNSET ROUND_BORDERS_UNSET : Z.
Variable mask : list win_option_mask_t.
Variables shadow_enable fading_enable : bool.

Let dflt :=
  default_winopt OPACITY_UNSET CORNER_RADIUS_UNSET ROUND_BORDERS_UNSET.
Let resolve :=
  resolve_wintype OPACITY_UNSET CORNER_RADIUS_UNSET ROUND_BORDERS_UNSET
    mask shadow_enable fading_enable.
Let resolved :=
  resolved_winopt OPACITY_UNSET CORNER_RADIUS_UNSET ROUND_BORDERS_UNSET
    mask shadow_enable fading_enable.

Lemma resolve_lookup w n i :
  resolve w n !! i = if decide (i = n) then resolved w n else w !! i.
Proof.
  unfold resolve, resolve_wintype, resolved, resolved_winopt.
  destruct (decide (i = n)) as [->|Hne].
  - destruct (w !! n) as [o|] eqn:Ho; [|exact Ho].
    destruct (mask !! n) as [m|]; [|exact Ho].
    apply list_lookup_insert_eq. eapply lookup_lt_Some, Ho.
  - destruct (w !! n) as [o|]; [|reflexivity].
    destruct (mask !! n) as [m|]; [|reflexivity].
    apply list_lookup_insert_ne. congruence.
Qed.

Lemma loop_lookup_ge n w i :
  (n <= i)%nat -> fold_left resolve (seq 0 n) w !! i = w !! i.
Proof.
  induction n as [|n IH]; intros Hi; [reflexivity|].
  rewrite seq_S, fold_left_app. simpl. rewrite resolve_lookup.
  destruct (decide (i = n)); [lia|]. apply IH. lia.
Qed.

Lemma loop_lookup n w i :
  fold_left resolve (seq 0 n) w !! i =
    if decide (i < n)%nat then resolved w i else w !! i.
Proof.
  induction n as [|n IH].
  - simpl. destruct (decide (i < 0)%nat); [lia | reflexivity].
  - rewrite seq_S, fold_left_app. simpl.
    rewrite resolve_lookup.
    destruct (decide (i = n)) as [->|Hne].
    + destruct (decide (n < S n)%nat); [|lia].
      unfold resolved at 1, resolved_winopt.
      rewrite loop_lookup_ge by lia. reflexivity.
    + rewrite IH. destruct (decide (i < n)%nat), (decide (i < S n)%nat);
        try reflexivity; lia.
Qed.

Lemma default_winopt_idem m o :
  dflt m shadow_enable fading_enable (dflt m shadow_enable fading_enable o) =
  dflt m shadow_enable fading_enable o.
Proof.
  unfold dflt, default_winopt.
  destruct m as [[] [] [] [] [] [] [] []]; reflexivity.
Qed.

Lemma loop_idem w :
  fold_left resolve (seq 0 NUM_WINTYPES)
    (fold_left resolve (seq 0 NUM_WINTYPES) w) =
  fold_left resolve (seq 0 NUM_WINTYPES) w.
Proof.
  apply list_eq. intros i. rewrite loop_lookup.
  destruct (decide (i < NUM_WINTYPES)%nat) as [Hi|Hi]; [|reflexivity].
  unfold resolved at 1, resolved_winopt. rewrite loop_lookup.
  destruct (decide (i < NUM_WINTYPES)%nat); [|lia].
  unfold resolved, resolved_winopt.
  destruct (w !! i) as [o|]; [|reflexivity].
  destruct (mask !! i) as [m|]; [|reflexivity].
  rewrite default_winopt_idem. reflexivity.
Qed.

End Resolve.

End WinoptFacts.

(** C1. For every window type [i] and every field of its [win_option_t],
    [set_default_winopts] keeps the value of the field when its mask bit is
    set and otherwise assigns the default: the global gates to [shadow] and
    [fade], the "no override" values to [opacity], [corner_radius] and
    [round_borders], [false] to [focus], [full_shadow] and [redir_ignore].
    An opacity of 0.5 whose mask bit is set is still 0.5 afterwards,
    whatever the gates. *)
Theorem set_default_winopts_fields
    (NUM_WINTYPES : nat) (OPACITY_UNSET : CFloat.double)
    (CORNER_RADIUS_UNSET ROUND_BORDERS_UNSET : Z)
    (opt : options_t) (mask : list win_option_mask_t)
    (shadow_enable fading_enable : bool)
    (i : nat) (o : win_option_t) (m : win_option_mask_t) :
  (i < NUM_WINTYPES)%nat ->
  wintype_option opt !! i = Some o -> mask !! i = Some m ->
  exists o',
    wintype_option
      (set_default_winopts NUM_WINTYPES OPACITY_UNSET CORNER_RADIUS_UNSET
         ROUND_BORDERS_UNSET opt mask shadow_enable fading_enable) !! i
      = Some o' /\
    shadow o' = (if mask_shadow m then shadow o else shadow_enable) /\
    fade o' = (if mask_fade m then fade o else fading_enable) /\
    focus o' = (if mask_focus m then focus o else false) /\
    full_shadow o' = (if mask_full_shadow m then full_shadow o else false) /\
    redir_ignore o' = (if mask_redir_ignore m then redir_ignore o else false) /\
    opacity o' = (if mask_opacity m then opacity o else OPACITY_UNSET) /\
    corner_radius o' =
      (if mask_corner_radius m then corner_radius o else CORNER_RADIUS_UNSET) /\
    round_borders o' =
      (if mask_round_borders m then round_borders o else ROUND_BORDERS_UNSET) /\
    (mask_opacity m = true -> opacity o = CFloat.half ->
     opacity o' = CFloat.half).
Proof.
  intros Hi Ho Hm.
  exists (default_winopt OPACITY_UNSET CORNER_RADIUS_UNSET ROUND_BORDERS_UNSET
            m shadow_enable fading_enable o).
  split.
  - unfold set_default_winopts. simpl.
    rewrite WinoptFacts.loop_lookup.
    destruct (decide (i < NUM_WINTYPES)%nat); [|lia].
    unfold resolved_winopt. rewrite Ho, Hm. reflexivity.
  - simpl. repeat (split; [reflexivity|]).
    intros -> ->. reflexivity.
Qed.

(** Window type 3 of the sample, with both gates on. *)
Lemma set_default_winopts_fields_witness :
  (3 < WinoptSample.NUM_WINTYPES)%nat /\
  exists o',
    wintype_option
      (WinoptSample.resolve WinoptSample.opt WinoptSample.mask true true)
      !! 3%nat = Some o' /\
    opacity o' = CFloat.half /\ shadow o' = true /\ corner_radius o' = -1.
Proof.
  split; [unfold WinoptSample.NUM_WINTYPES; lia|].
  destruct (set_default_winopts_fields
              WinoptSample.NUM_WINTYPES WinoptSample.OPACITY_UNSET
              WinoptSample.CORNER_RADIUS_UNSET WinoptSample.ROUND_BORDERS_UNSET
              WinoptSample.opt WinoptSample.mask true true
              3%nat WinoptSample.half_opacity WinoptSample.opacity_mask)
    as (o' & Ho' & Hshadow & _ & _ & _ & _ & Hop & Hcr & _).
  - unfold WinoptSample.NUM_WINTYPES. lia.
  - reflexivity.
  - reflexivity.
  - exists o'. split; [exact Ho'|].
    split; [exact Hop|]. split; [exact Hshadow | exact Hcr].
Defined.

(** C5. Applying [set_default_winopts] a second time with the same mask and
    gates changes nothing, and an application never changes a field whose
    mask bit is set. *)
Theorem set_default_winopts_idempotent
    (NUM_WINTYPES : nat) (OPACITY_UNSET : CFloat.double)
    (CORNER_RADIUS_UNSET ROUND_BORDERS_UNSET : Z)
    (opt : options_t) (mask : list win_option_mask_t)
    (shadow_enable fading_enable : bool) :
  let resolve := set_default_winopts NUM_WINTYPES OPACITY_UNSET
                   CORNER_RADIUS_UNSET ROUND_BORDERS_UNSET in
  resolve (resolve opt mask shadow_enable fading_enable)
    mask shadow_enable fading_enable =
  resolve opt mask shadow_enable fading_enable /\
  forall i o m o',
    wintype_option opt !! i = Some o -> mask !! i = Some m ->
    wintype_option (resolve opt mask shadow_enable fading_enable) !! i
      = Some o' ->
    (mask_shadow m = true -> shadow o' = shadow o) /\
    (mask_fade m = true -> fade o' = fade o) /\
    (mask_focus m = true -> focus o' = focus o) /\
    (mask_full_shadow m = true -> full_shadow o' = full_shadow o) /\
    (mask_redir_ignore m = true -> redir_ignore o' = redir_ignore o) /\
    (mask_opacity m = true -> opacity o' = opacity o) /\
    (mask_corner_radius m = true -> corner_radius o' = corner_radius o) /\
    (mask_round_borders m = true -> round_borders o' = round_borders o).
Proof.
  intros resolve. subst resolve. split.
  - unfold set_default_winopts, set_wintype_option. simpl.
    rewrite WinoptFacts.loop_idem. reflexivity.
  - intros i o m o' Ho Hm. unfold set_default_winopts. simpl.
    rewrite WinoptFacts.loop_lookup.
    destruct (decide (i < NUM_WINTYPES)%nat).
    + unfold resolved_winopt. rewrite Ho, Hm. intros [= <-]. simpl.
      repeat split; intros ->; reflexivity.
    + rewrite Ho. intros [= <-]. repeat split; reflexivity.
Qed.

(** The sample resolved twice, and its window type 3. *)
Lemma set_default_winopts_idempotent_witness :
  WinoptSample.resolve
    (WinoptSample.resolve WinoptSample.opt WinoptSample.mask true false)
    WinoptSample.mask true false =
  WinoptSample.resolve WinoptSample.opt WinoptSample.mask true false.
Proof.
  exact (proj1 (set_default_winopts_idempotent
                  WinoptSample.NUM_WINTYPES WinoptSample.OPACITY_UNSET
                  WinoptSample.CORNER_RADIUS_UNSET
                  WinoptSample.ROUND_BORDERS_UNSET
                  WinoptSample.opt WinoptSample.mask true false)).
Defined.

(** ** Properties of the condition lists *)

Module CondlstFacts.

Section Lists.

Variable c2_cond : Type.
Variable c2_parse_pattern : string -> option c2_cond.
Variable order : insertion_order.

Let added := condlst_added c2_cond order.

Lemma added_length cs l : length (added cs l) = (length l + length cs)%nat.
Proof.
  unfold added, condlst_added. destruct order;
    rewrite length_app, ?length_rev, length_map; lia.
Qed.

Lemma condlst_add_all_success patterns :
  forall cs l,
    Forall2 (fun p c => c2_parse_pattern p = Some c) patterns cs ->
    condlst_add_all c2_cond c2_parse_pattern order l patterns =
      (map (fun _ => true) patterns, added cs l).
Proof.
  induction patterns as [|p rest IH]; intros cs l Hall.
  - apply Forall2_nil_inv_l in Hall as ->. unfold added, condlst_added. simpl.
    destruct order; [rewrite app_nil_r|]; reflexivity.
  - apply Forall2_cons_inv_l in Hall as (c & cs' & Hc & Hrest & ->).
    simpl. unfold condlst_add at 1. rewrite Hc.
    rewrite (IH cs' _ Hrest). f_equal.
    unfold added, condlst_added, c2_insert. destruct order; simpl.
    + rewrite <- app_assoc. reflexivity.
    + rewrite <- app_assoc. reflexivity.
Qed.

End Lists.

End CondlstFacts.

(** C6. [condlst_add] with a pattern the grammar rejects, and
    [parse_rule_opacity] with a rule whose pattern part or opacity part
    does not parse, return failure and leave the list as it was; [N]
    consecutive calls of [condlst_add] with well-formed patterns all
    succeed and add exactly [N] nodes, in the order of the calls or in the
    reverse order, according to the order the list keeps. *)
Theorem condlst_add_atomic
    (c2_cond : Type) (c2_parse_pattern : string -> option c2_cond)
    (split_rule : string -> option (string * string))
    (parse_opacity : string -> option Z) (order : insertion_order)
    (l : c2_lptr_t c2_cond) :
  (forall pattern, c2_parse_pattern pattern = None ->
     condlst_add c2_cond c2_parse_pattern order l pattern = (false, l)) /\
  (forall src pattern value,
     split_rule src = Some (pattern, value) ->
     c2_parse_pattern pattern = None \/ parse_opacity value = None ->
     parse_rule_opacity c2_cond c2_parse_pattern split_rule parse_opacity
       order l src = (false, l)) /\
  (forall patterns cs,
     Forall2 (fun p c => c2_parse_pattern p = Some c) patterns cs ->
     exists l',
       condlst_add_all c2_cond c2_parse_pattern order l patterns =
         (map (fun _ => true) patterns, l') /\
       length l' = (length l + length patterns)%nat /\
       l' = match order with
            | First_parsed_first =>
                l ++ map (fun c => mk_c2_node c None) cs
            | Last_parsed_first =>
                rev (map (fun c => mk_c2_node c None) cs) ++ l
            end).
Proof.
  split; [|split].
  - intros pattern Hp. unfold condlst_add. rewrite Hp. reflexivity.
  - intros src pattern value Hsplit Hfail. unfold parse_rule_opacity.
    rewrite Hsplit. destruct (parse_opacity value) as [v|]; [|reflexivity].
    destruct Hfail as [Hp|Hv]; [rewrite Hp; reflexivity | discriminate].
  - intros patterns cs Hall.
    exists (condlst_added c2_cond order cs l).
    split; [apply CondlstFacts.condlst_add_all_success; exact Hall|].
    split; [|reflexivity].
    rewrite CondlstFacts.added_length.
    apply Forall2_length in Hall. lia.
Qed.

(** The sample grammar: an empty pattern, a rule with a bad opacity, and
    two good patterns in a row. *)
Lemma condlst_add_atomic_witness :
  let node := mk_c2_node "class_g = 'x'" None in
  condlst_add string CondlstSample.c2_parse_pattern Last_parsed_first
    [node] "" = (false, [node]) /\
  parse_rule_opacity string CondlstSample.c2_parse_pattern
    CondlstSample.split_rule CondlstSample.parse_opacity Last_parsed_first
    [node] "name = 'a':7" = (false, [node]) /\
  condlst_add_all string CondlstSample.c2_parse_pattern Last_parsed_first
    [node] ["a"; "b"] =
    ([true; true], [mk_c2_node "b" None; mk_c2_node "a" None; node]).
Proof.
  intros node.
  destruct (condlst_add_atomic string CondlstSample.c2_parse_pattern
              CondlstSample.split_rule CondlstSample.parse_opacity
              Last_parsed_first [node]) as (Hadd & Hrule & Hall).
  split; [apply Hadd; reflexivity|].
  split; [apply (Hrule _ "name = 'a'" "7"); [reflexivity | right; reflexivity]|].
  destruct (Hall ["a"; "b"] ["a"; "b"]) as (l' & Hl' & _ & ->).
  - repeat constructor.
  - exact Hl'.
Defined.

(** ** Properties of the configuration loader *)

Module LoaderFacts.

Lemma set_mask_bit_mono f f0 m :
  mask_bit f m = true -> mask_bit f (set_mask_bit f0 m) = true.
Proof. destruct f, f0; simpl; auto. Qed.

Section Loader.

Variable recognized : string -> bool.
Variable key_bit : string -> option (nat * winopt_field).
Variable set_by_cli : string -> bool.
Variable parse_value : string -> string -> option field_value.
Variable cli_mask : list win_option_mask_t.

Let step := load_setting recognized key_bit set_by_cli parse_value cli_mask.
Let load := load_settings recognized key_bit set_by_cli parse_value cli_mask.
Let field_after :=
  loader_field_after recognized key_bit set_by_cli parse_value cli_mask.
Let setting_log := loader_setting_log recognized parse_value.

Lemma mark_present_mono key mask i f :
  mask_bit_at mask i f = true ->
  mask_bit_at (mark_present key_bit key mask) i f = true.
Proof.
  unfold mark_present. destruct (key_bit key) as [[i0 f0]|]; [|auto].
  unfold mask_bit_at. destruct (decide (i0 = i)) as [->|Hne].
  - rewrite list_lookup_alter_eq. destruct (mask !! i) as [m|]; simpl; [|auto].
    apply set_mask_bit_mono.
  - rewrite list_lookup_alter_ne by exact Hne. auto.
Qed.

Lemma step_effect_refl (st : load_state) : step_effect st st.
Proof. split; auto. Qed.

Lemma step_effect_trans (st st1 st2 : load_state) :
  step_effect st st1 -> step_effect st1 st2 -> step_effect st st2.
Proof. intros [H1 H2] [H3 H4]. split; auto. Qed.

Lemma load_setting_spec st key raw :
  exists st1, step st (key, raw) = Some (st1, setting_log (key, raw)) /\
    ld_fields st1 !! key = field_after st key raw /\
    (forall k, k <> key -> ld_fields st1 !! k = ld_fields st !! k) /\
    step_effect st st1.
Proof.
  unfold step, load_setting, field_after, setting_log,
    loader_field_after, loader_setting_log. simpl.
  destruct (recognized key); simpl.
  2:{ exists st. repeat split; auto. }
  destruct (parse_value key raw) as [v|]; simpl.
  - destruct (cli_set key_bit set_by_cli cli_mask key); simpl.
    + eexists. split; [reflexivity|]. simpl.
      repeat split; auto. intros i f. apply mark_present_mono.
    + eexists. split; [reflexivity|]. simpl. split; [apply lookup_insert_eq|].
      split; [intros k Hk; apply lookup_insert_ne; congruence|].
      split; simpl.
      * intros k Hk. apply lookup_insert_is_Some'. right. exact Hk.
      * intros i f. apply mark_present_mono.
  - eexists. split; [reflexivity|]. simpl.
    repeat split; auto. intros i f. apply mark_present_mono.
Qed.

Lemma load_settings_spec settings :
  forall st, exists st',
    load settings st = Some (st', concat (map setting_log settings)) /\
    (forall k, k ∉ settings.*1 -> ld_fields st' !! k = ld_fields st !! k) /\
    (NoDup settings.*1 -> forall key raw, (key, raw) ∈ settings ->
       ld_fields st' !! key = field_after st key raw) /\
    step_effect st st'.
Proof.
  induction settings as [|[k0 r0] rest IH]; intros st.
  - exists st. split; [reflexivity|]. split; [reflexivity|].
    split; [|apply step_effect_refl].
    intros _ key raw Hin. apply elem_of_nil in Hin as [].
  - destruct (load_setting_spec st k0 r0)
      as (st1 & Hstep & Hk0 & Hother & Heff1).
    destruct (IH st1) as (st' & Hload & Hframe & Hlookup & Heff).
    exists st'. split; [|split; [|split]].
    + unfold load, step in *.
      change (bind (load_setting recognized key_bit set_by_cli parse_value
                      cli_mask st (k0, r0))
                (load_settings recognized key_bit set_by_cli parse_value
                   cli_mask rest) =
              Some (st', setting_log (k0, r0) ++ concat (map setting_log rest))).
      rewrite Hstep. simpl. rewrite Hload. reflexivity.
    + intros k Hk. simpl in Hk. apply not_elem_of_cons in Hk as [Hne Hk].
      rewrite (Hframe k Hk). apply Hother, Hne.
    + intros Hnd key raw Hin. simpl in Hnd.
      apply NoDup_cons in Hnd as [Hfresh Hnd].
      apply elem_of_cons in Hin as [[= -> ->]|Hin].
      * rewrite (Hframe k0 Hfresh). exact Hk0.
      * assert (key <> k0) as Hne.
        { intros ->. apply Hfresh. apply list_elem_of_fmap.
          exists (k0, raw). split; [reflexivity | exact Hin]. }
        rewrite (Hlookup Hnd key raw Hin).
        unfold field_after, loader_field_after.
        rewrite (Hother key Hne). reflexivity.
    + apply (step_effect_trans _ st1); assumption.
Qed.

(** The log of a file in which one setting is logged and the others are
    not. *)
Lemma logs_single (settings : list (string * string)) key raw r :
  NoDup settings.*1 -> (key, raw) ∈ settings ->
  setting_log (key, raw) = [r] ->
  (forall k v, (k, v) ∈ settings -> k <> key -> setting_log (k, v) = []) ->
  concat (map setting_log settings) = [r].
Proof.
  induction settings as [|[k0 r0] rest IH]; simpl; intros Hnd Hin Hlog Hquiet.
  - apply elem_of_nil in Hin as [].
  - apply NoDup_cons in Hnd as [Hfresh Hnd].
    apply elem_of_cons in Hin as [[= -> ->]|Hin].
    + rewrite Hlog. simpl. f_equal.
      assert (forall l : list (string * string),
                (forall k v, (k, v) ∈ l -> setting_log (k, v) = []) ->
                concat (map setting_log l) = []) as Hnil.
      { induction l as [|[k v] l IHl]; intros Hl; [reflexivity|]. simpl.
        rewrite (Hl k v) by (apply elem_of_cons; left; reflexivity).
        apply IHl. intros k' v' Hin'. apply Hl. apply elem_of_cons. right.
        exact Hin'. }
      apply Hnil. intros k v Hkv. apply Hquiet.
      * apply elem_of_cons. right. exact Hkv.
      * intros ->. apply Hfresh. apply list_elem_of_fmap.
        exists (k0, v). split; [reflexivity | exact Hkv].
    + assert (k0 <> key) as Hne.
      { intros ->. apply Hfresh. apply list_elem_of_fmap.
        exists (key, raw). split; [reflexivity | exact Hin]. }
      rewrite (Hquiet k0 r0) by (auto; apply elem_of_cons; left; reflexivity).
      simpl. apply IH; auto.
      intros k v Hkv. apply Hquiet. apply elem_of_cons. right. exact Hkv.
Qed.

End Loader.

End LoaderFacts.

(** C7. With the file format in the build, a file of settings with distinct
    recognized keys, one of them malformed and the others well formed, is
    loaded to the end: the loader returns the path and a state; it logs the
    malformed value and nothing else; the field of the malformed key has
    its prior value; every other key of the file holds its parsed value, or
    keeps the value the command line gave it; the fields of absent keys are
    as before; every field that was defined is still defined; and no mask
    bit that was set is cleared. Without the file format the call returns
    NULL, logs nothing and leaves the state as it was. *)
Theorem parse_config_recovers
    (read_config : option string -> option (string * list (string * string)))
    (recognized : string -> bool)
    (key_bit : string -> option (nat * winopt_field))
    (set_by_cli : string -> bool)
    (parse_value : string -> string -> option field_value)
    (st : load_state) (config_file : option string)
    (path : string) (settings : list (string * string))
    (bad_key bad_raw : string) :
  read_config config_file = Some (path, settings) ->
  NoDup settings.*1 ->
  (bad_key, bad_raw) ∈ settings ->
  recognized bad_key = true -> parse_value bad_key bad_raw = None ->
  (forall key raw, (key, raw) ∈ settings -> key <> bad_key ->
     recognized key = true /\ is_Some (parse_value key raw)) ->
  (exists st',
     parse_config true read_config recognized key_bit set_by_cli parse_value
       st config_file
       = Some ((Some path, st'), [malformed_record bad_key bad_raw]) /\
     ld_fields st' !! bad_key = ld_fields st !! bad_key /\
     (forall key raw, (key, raw) ∈ settings -> key <> bad_key ->
        ld_fields st' !! key =
          if cli_set key_bit set_by_cli (ld_mask st) key
          then ld_fields st !! key else parse_value key raw) /\
     (forall key, key ∉ settings.*1 ->
        ld_fields st' !! key = ld_fields st !! key) /\
     (forall key, is_Some (ld_fields st !! key) ->
        is_Some (ld_fields st' !! key)) /\
     (forall i f, mask_bit_at (ld_mask st) i f = true ->
        mask_bit_at (ld_mask st') i f = true)) /\
  (forall st1 file1,
     parse_config false read_config recognized key_bit set_by_cli parse_value
       st1 file1 = Some ((None, st1), [])).
Proof.
  intros Hread Hnd Hbad Hrec Hmal Hgood. split; [|reflexivity].
  destruct (LoaderFacts.load_settings_spec recognized key_bit set_by_cli
              parse_value (ld_mask st) settings st)
    as (st' & Hload & Hframe & Hlookup & [Hdef Hmask]).
  exists st'. split; [|split; [|split; [|split; [|split]]]].
  - unfold parse_config, parse_config_libconfig. rewrite Hread.
    rewrite Hload. simpl. rewrite app_nil_r. do 2 f_equal.
    apply (LoaderFacts.logs_single _ _ settings bad_key bad_raw); auto.
    + unfold loader_setting_log. simpl. rewrite Hrec, Hmal. reflexivity.
    + intros k v Hkv Hne. destruct (Hgood k v Hkv Hne) as [Hr [w Hw]].
      unfold loader_setting_log. simpl. rewrite Hr, Hw. reflexivity.
  - rewrite (Hlookup Hnd bad_key bad_raw Hbad).
    unfold loader_field_after. rewrite Hrec, Hmal. reflexivity.
  - intros key raw Hin Hne. rewrite (Hlookup Hnd key raw Hin).
    destruct (Hgood key raw Hin Hne) as [Hr [v Hv]].
    unfold loader_field_after. rewrite Hr, Hv. reflexivity.
  - intros key Hkey. apply (Hframe key Hkey).
  - exact Hdef.
  - exact Hmask.
Qed.

(** The sample file: the bad ["backend"] is logged and keeps the value it
    had, ["vsync"] and the shadow of window type 2 are applied, the fade of
    window type 2 keeps the value of the command line. *)
Lemma parse_config_recovers_witness :
  exists st',
    parse_config true LoaderSample.read_config LoaderSample.recognized
      LoaderSample.key_bit LoaderSample.set_by_cli LoaderSample.parse_value
      LoaderSample.st None
      = Some ((Some "picom.conf", st'), [malformed_record "backend" "opengl"]) /\
    ld_fields st' !! "backend" = Some (FInt BKEND_XRENDER) /\
    ld_fields st' !! "vsync" = Some (FBool false) /\
    ld_fields st' !! LoaderSample.shadow_key = Some (FBool true) /\
    ld_fields st' !! LoaderSample.fade_key = Some (FBool false).
Proof.
  destruct (parse_config_recovers LoaderSample.read_config
              LoaderSample.recognized LoaderSample.key_bit
              LoaderSample.set_by_cli LoaderSample.parse_value
              LoaderSample.st None
              "picom.conf" LoaderSample.settings "backend" "opengl")
    as [(st' & Hp & Hbad & Hothers & _) _].
  - reflexivity.
  - apply NoDup_ListNoDup. unfold LoaderSample.settings. simpl.
    repeat (constructor; [simpl; intuition discriminate|]). constructor.
  - unfold LoaderSample.settings. apply list_elem_of_In. simpl. tauto.
  - reflexivity.
  - reflexivity.
  - intros key raw Hin Hne. unfold LoaderSample.settings in Hin.
    apply list_elem_of_In in Hin. simpl in Hin.
    destruct Hin as [[= <- <-]|[[= <- <-]|[[= <- <-]|[[= <- <-]|[]]]]];
      try congruence; (split; [reflexivity | eexists; reflexivity]).
  - exists st'. split; [exact Hp|]. split; [rewrite Hbad; reflexivity|].
    split; [|split].
    + rewrite (Hothers "vsync" "false"); [reflexivity | | discriminate].
      apply list_elem_of_In. simpl. tauto.
    + rewrite (Hothers LoaderSample.shadow_key "true");
        [reflexivity | | discriminate].
      apply list_elem_of_In. simpl. tauto.
    + rewrite (Hothers LoaderSample.fade_key "true");
        [reflexivity | | discriminate].
      apply list_elem_of_In. simpl. tauto.
Defined.

(** ** Further properties of [parse_backend] *)

Module BackendLoop.

(** The loop on any table: it logs nothing; an index it returns is that of
    the first name that matches, and it ends at a NULL entry only after
    names that do not match. *)
Lemma loop_inv (tbl : list (option string)) :
  forall i str r l,
    parse_backend_loop tbl i str = Some (r, l) ->
    l = [] /\
    exists k : nat,
      (forall j : nat, (j < k)%nat ->
         exists m, tbl !! j = Some (Some m) /\ strcasecmp str m <> 0) /\
      match r with
      | Some b =>
          b = i + Z.of_nat k /\
          exists n, tbl !! k = Some (Some n) /\ strcasecmp str n = 0
      | None => tbl !! k = Some None
      end.
Proof.
  induction tbl as [|[n0|] rest IH]; intros i str r l Hrun; simpl in Hrun.
  - discriminate.
  - destruct (strcasecmp str n0 =? 0) eqn:E.
    + injection Hrun as <- <-. apply Z.eqb_eq in E.
      split; [reflexivity|]. exists 0%nat. split; [intros j Hj; lia|].
      split; [lia|]. exists n0. split; [reflexivity | exact E].
    + apply Z.eqb_neq in E.
      destruct (IH _ _ _ _ Hrun) as (Hl & k & Hbefore & Hk).
      split; [exact Hl|]. exists (S k). split.
      * intros [|j] Hj; simpl.
        -- exists n0. split; [reflexivity | exact E].
        -- apply Hbefore. lia.
      * destruct r as [b|]; simpl.
        -- destruct Hk as [-> Hn]. split; [lia | exact Hn].
        -- exact Hk.
  - injection Hrun as <- <-. split; [reflexivity|].
    exists 0%nat. split; [intros j Hj; lia | reflexivity].
Qed.

(** Nothing after the first NULL entry is read. *)
Lemma loop_stops_at_null (names : list string) (rest : list (option string)) :
  forall i str,
    parse_backend_loop (map Some names ++ None :: rest) i str =
    parse_backend_loop (backend_table names) i str.
Proof.
  unfold backend_table.
  induction names as [|n names IH]; intros i str; simpl; [reflexivity|].
  destruct (strcasecmp str n =? 0); [reflexivity | apply IH].
Qed.

(** Without a NULL entry the loop runs off the table unless a name
    matches. *)
Lemma loop_unterminated (names : list string) :
  forall i str,
    parse_backend_loop (map Some names) i str = None <->
    (forall n, In n names -> strcasecmp str n <> 0).
Proof.
  induction names as [|n names IH]; intros i str; simpl.
  - split; [intros _ m [] | reflexivity].
  - destruct (strcasecmp str n =? 0) eqn:E.
    + apply Z.eqb_eq in E. split; [discriminate|].
      intros Hno. exfalso. apply (Hno n); [left; reflexivity | exact E].
    + apply Z.eqb_neq in E. rewrite IH. split.
      * intros Hno m [<-|Hm]; [exact E | apply Hno, Hm].
      * intros Hno m Hm. apply Hno. right. exact Hm.
Qed.

(** Two spellings of one word compare alike with every C string. *)
Lemma strcasecmp_case_variant s t n :
  nul_free s = true -> nul_free t = true -> nul_free n = true ->
  case_variant s t ->
  (strcasecmp s n =? 0) = (strcasecmp t n =? 0).
Proof.
  intros Hs Ht Hn Hv.
  pose proof (strcasecmp_eq0 s n Hs Hn) as H1.
  pose proof (strcasecmp_eq0 t n Ht Hn) as H2.
  unfold case_variant in Hv. rewrite Hv in H1.
  destruct (strcasecmp s n =? 0) eqn:E1, (strcasecmp t n =? 0) eqn:E2;
    try reflexivity.
  - apply Z.eqb_eq in E1. apply Z.eqb_neq in E2. tauto.
  - apply Z.eqb_neq in E1. apply Z.eqb_eq in E2. tauto.
Qed.

Lemma loop_case_variant (tbl : list (option string)) s t :
  (forall n, In (Some n) tbl -> nul_free n = true) ->
  nul_free s = true -> nul_free t = true -> case_variant s t ->
  forall i, parse_backend_loop tbl i s = parse_backend_loop tbl i t.
Proof.
  intros Htbl Hs Ht Hv.
  induction tbl as [|[n0|] rest IH]; intros i; simpl; try reflexivity.
  rewrite (strcasecmp_case_variant s t n0) by (auto; apply Htbl; left; reflexivity).
  destruct (strcasecmp t n0 =? 0); [reflexivity|].
  apply IH. intros n Hn. apply Htbl. right. exact Hn.
Qed.

End BackendLoop.

(** X1. [parse_backend] does not see letter case: on two C strings that
    differ in letter case only, whatever the table of names, it returns the
    same value (or is undefined on both) and logs records of the same
    levels. *)
Theorem parse_backend_case_invariant
    (tbl : list (option string)) (s t : string) :
  (forall n, In (Some n) tbl -> nul_free n = true) ->
  nul_free s = true -> nul_free t = true -> case_variant s t ->
  value_of (parse_backend tbl s) = value_of (parse_backend tbl t) /\
  logged_levels (parse_backend tbl s) = logged_levels (parse_backend tbl t).
Proof.
  intros Htbl Hs Ht Hv. unfold parse_backend.
  rewrite (BackendLoop.loop_case_variant tbl s t Htbl Hs Ht Hv).
  destruct (parse_backend_loop tbl 0 t) as [[[b|] l]|]; simpl;
    [split; reflexivity | | split; reflexivity].
  rewrite (BackendLoop.strcasecmp_case_variant s t "xr_glx_hybird")
    by (auto; reflexivity).
  rewrite (BackendLoop.strcasecmp_case_variant s t "xr-glx-hybrid")
    by (auto; reflexivity).
  destruct (strcasecmp t "xr_glx_hybird" =? 0);
    [|destruct (strcasecmp t "xr-glx-hybrid" =? 0)];
    unfold logged_levels; simpl; rewrite !map_app; split; reflexivity.
Qed.

(** ["Xr_Glx_Hybrid"] and ["XR_GLX_HYBRID"] on the sample table. *)
Lemma parse_backend_case_invariant_witness :
  value_of (parse_backend (backend_table sample_backend_names) "Xr_Glx_Hybrid")
  = value_of (parse_backend (backend_table sample_backend_names) "XR_GLX_HYBRID").
Proof.
  apply (parse_backend_case_invariant
           (backend_table sample_backend_names) "Xr_Glx_Hybrid" "XR_GLX_HYBRID").
  - intros n Hn. simpl in Hn.
    destruct Hn as [[= <-]|[[= <-]|[[= <-]|[[= <-]|[[=]|[]]]]]]; reflexivity.
  - reflexivity.
  - reflexivity.
  - reflexivity.
Defined.

(** X2. The loop ends at the first NULL entry of the table: what follows
    that entry has no effect on the result or on the log. *)
Theorem parse_backend_stops_at_null
    (names : list string) (rest : list (option string)) (str : string) :
  parse_backend (map Some names ++ None :: rest) str =
  parse_backend (backend_table names) str.
Proof.
  unfold parse_backend.
  rewrite BackendLoop.loop_stops_at_null. reflexivity.
Qed.

(** X3. The loop relies on the NULL entry: on a table without one the call
    reads past the table, which is undefined, exactly when no name of the
    table matches the string. *)
Theorem parse_backend_unterminated (names : list string) (str : string) :
  parse_backend (map Some names) str = None <->
  (forall n, In n names -> strcasecmp str n <> 0).
Proof.
  rewrite <- (BackendLoop.loop_unterminated names 0 str).
  unfold parse_backend.
  destruct (parse_backend_loop (map Some names) 0 str) as [[r l]|] eqn:Hrun;
    simpl; [|tauto].
  split; [|discriminate].
  destruct (BackendLoop.loop_inv _ _ _ _ _ Hrun) as (_ & k & _ & Hk).
  destruct r as [b|]; simpl; [discriminate|].
  rewrite list_lookup_fmap in Hk.
  destruct (names !! k); discriminate.
Qed.

(** X4. What a result of [parse_backend] says about its argument: a value
    returned without a log record is the position of a table entry of
    which the argument is a spelling; [BKEND_XR_GLX_HYBRID] with a warning
    means the argument is a spelling of the legacy name the warning is
    about; the only other result is [NUM_BKEND] with the error record. *)
Theorem parse_backend_sound
    (tbl : list (option string)) (str : string) (b : Z) (l : list log_msg) :
  (forall n, In (Some n) tbl -> nul_free n = true) ->
  nul_free str = true ->
  parse_backend tbl str = Some (b, l) ->
  (l = [] /\ 0 <= b /\
   exists n, tbl !! Z.to_nat b = Some (Some n) /\ case_variant str n) \/
  (b = BKEND_XR_GLX_HYBRID /\ l = [mk_log LOG_WARN hybird_warning []] /\
   case_variant str "xr_glx_hybird") \/
  (b = BKEND_XR_GLX_HYBRID /\ l = [mk_log LOG_WARN dashes_warning []] /\
   case_variant str "xr-glx-hybrid") \/
  (b = NUM_BKEND /\ l = [invalid_backend_record str] /\
   ~ case_variant str "xr_glx_hybird" /\ ~ case_variant str "xr-glx-hybrid").
Proof.
  intros Htbl Hs. unfold parse_backend.
  destruct (parse_backend_loop tbl 0 str) as [[r l0]|] eqn:Hrun;
    simpl; [|discriminate].
  destruct (BackendLoop.loop_inv _ _ _ _ _ Hrun) as (-> & k & _ & Hk).
  destruct r as [b0|]; simpl.
  - intros [= <- <-]. left. destruct Hk as (-> & n & Hn & Hm).
    split; [reflexivity|]. split; [lia|].
    exists n. replace (Z.to_nat (0 + Z.of_nat k)) with k by lia.
    split; [exact Hn|].
    apply strcasecmp_eq0; auto.
    apply Htbl. apply list_elem_of_In, list_elem_of_lookup. eauto.
  - pose proof (strcasecmp_eq0 str "xr_glx_hybird" Hs eq_refl) as H1.
    pose proof (strcasecmp_eq0 str "xr-glx-hybrid" Hs eq_refl) as H2.
    destruct (strcasecmp str "xr_glx_hybird" =? 0) eqn:E1.
    { apply Z.eqb_eq in E1. intros [= <- <-]. right. left.
      split; [reflexivity|]. split; [reflexivity|]. apply H1, E1. }
    apply Z.eqb_neq in E1.
    destruct (strcasecmp str "xr-glx-hybrid" =? 0) eqn:E2.
    { apply Z.eqb_eq in E2. intros [= <- <-]. right. right. left.
      split; [reflexivity|]. split; [reflexivity|]. apply H2, E2. }
    apply Z.eqb_neq in E2. intros [= <- <-]. right. right. right.
    split; [reflexivity|]. split; [reflexivity|].
    split; [intros Hc; apply E1, H1, Hc | intros Hc; apply E2, H2, Hc].
Qed.

(** The result [BKEND_GLX] of ["Glx"] on the sample table. *)
Lemma parse_backend_sound_witness :
  exists n, backend_table sample_backend_names !! 1%nat = Some (Some n) /\
    case_variant "Glx" n.
Proof.
  destruct (parse_backend_sound (backend_table sample_backend_names) "Glx"
              BKEND_GLX []) as [(_ & _ & n & Hn & Hv)|[H|[H|H]]].
  - intros n Hn. simpl in Hn.
    destruct Hn as [[= <-]|[[= <-]|[[= <-]|[[= <-]|[[=]|[]]]]]]; reflexivity.
  - reflexivity.
  - reflexivity.
  - exists n. split; [exact Hn | exact Hv].
  - destruct H as (Hb & _). discriminate Hb.
  - destruct H as (Hb & _). discriminate Hb.
  - destruct H as (Hb & _). discriminate Hb.
Defined.

(** X5. With at most [NUM_BKEND] names before the NULL entry, the call
    returns, logs at most one record, logs none exactly when a name of the
    table matches, and returns [NUM_BKEND] exactly when the record is the
    error: the sentinel never comes without the error, nor the error with
    a backend. *)
Theorem parse_backend_sentinel_iff_error (names : list string) (str : string) :
  (length names <= Z.to_nat NUM_BKEND)%nat ->
  exists b l,
    parse_backend (backend_table names) str = Some (b, l) /\
    (b = NUM_BKEND <-> l = [invalid_backend_record str]) /\
    (b = NUM_BKEND <-> exists r, In r l /\ log_lvl r = LOG_ERROR) /\
    (l = [] <-> exists n, In n names /\ strcasecmp str n = 0) /\
    (length l <= 1)%nat.
Proof.
  intros Hlen. unfold parse_backend.
  destruct (BackendFacts.parse_backend_loop_spec names 0 str)
    as (r & Hr & Hspec).
  rewrite Hr. destruct r as [b|]; simpl.
  - destruct Hspec as (k & n & -> & Hk & Hm & _).
    pose proof (lookup_lt_Some _ _ _ Hk) as Hlt.
    eexists _, _. split; [reflexivity|].
    unfold NUM_BKEND in *.
    split; [split; [lia | discriminate]|].
    split; [split; [lia | intros (r & [] & _)]|].
    split; [|simpl; lia].
    split; [|reflexivity]. intros _. exists n.
    split; [|exact Hm]. apply list_elem_of_In, list_elem_of_lookup. eauto.
  - assert (~ exists n, In n names /\ strcasecmp str n = 0) as Hnone.
    { intros (n & Hn & Hm). apply (Hspec n Hn Hm). }
    destruct (strcasecmp str "xr_glx_hybird" =? 0);
      [|destruct (strcasecmp str "xr-glx-hybrid" =? 0)];
      simpl; eexists _, _; (split; [reflexivity|]);
      unfold BKEND_XR_GLX_HYBRID, NUM_BKEND, invalid_backend_record.
    + split; [split; [lia | discriminate]|].
      split; [split; [lia | intros (r & [<-|[]] & Hr'); discriminate]|].
      split; [split; [discriminate | tauto] | simpl; lia].
    + split; [split; [lia | discriminate]|].
      split; [split; [lia | intros (r & [<-|[]] & Hr'); discriminate]|].
      split; [split; [discriminate | tauto] | simpl; lia].
    + split; [split; reflexivity|].
      split; [split; [intros _; eexists; split; [left; reflexivity | reflexivity] | reflexivity]|].
      split; [split; [discriminate | tauto] | simpl; lia].
Qed.

(** ["opengl"] on the sample table. *)
Lemma parse_backend_sentinel_iff_error_witness :
  (length sample_backend_names <= Z.to_nat NUM_BKEND)%nat /\
  exists b l,
    parse_backend (backend_table sample_backend_names) "opengl" = Some (b, l) /\
    (b = NUM_BKEND <-> l = [invalid_backend_record "opengl"]).
Proof.
  split; [vm_compute; lia|].
  destruct (parse_backend_sentinel_iff_error sample_backend_names "opengl")
    as (b & l & Hp & Hiff & _); [vm_compute; lia|].
  exists b, l. split; [exact Hp | exact Hiff].
Defined.

(** X6. The first match wins: when the string matches a name of the table,
    the call returns the least position of a matching name and logs
    nothing, also when the string is a spelling of a legacy name. *)
Theorem parse_backend_first_match
    (names : list string) (str : string) (k : nat) (n : string) :
  names !! k = Some n -> strcasecmp str n = 0 ->
  exists b : nat,
    parse_backend (backend_table names) str = Some (Z.of_nat b, []) /\
    (b <= k)%nat /\
    (exists m, names !! b = Some m /\ strcasecmp str m = 0) /\
    (forall j m, (j < b)%nat -> names !! j = Some m -> strcasecmp str m <> 0).
Proof.
  intros Hk Hm. unfold parse_backend.
  destruct (BackendFacts.parse_backend_loop_spec names 0 str)
    as (r & Hr & Hspec).
  rewrite Hr. destruct r as [b|]; simpl.
  - destruct Hspec as (k' & n' & -> & Hk' & Hm' & Hfirst).
    exists k'. split; [reflexivity|]. split.
    + destruct (Nat.le_gt_cases k' k) as [Hle|Hgt]; [exact Hle|].
      exfalso. apply (Hfirst k n Hgt Hk Hm).
    + split; [exists n'; split; assumption | exact Hfirst].
  - exfalso. apply (Hspec n); [|exact Hm].
    apply list_elem_of_In, list_elem_of_lookup. eauto.
Qed.

(** A table with the dashed spelling as a second name for the hybrid
    backend: ["XR-GLX-HYBRID"] then gives its position, with no warning. *)
Lemma parse_backend_first_match_witness :
  parse_backend (backend_table ["xrender"; "glx"; "xr_glx_hybrid"; "xr-glx-hybrid"])
    "XR-GLX-HYBRID" = Some (3, []).
Proof.
  destruct (parse_backend_first_match
              ["xrender"; "glx"; "xr_glx_hybrid"; "xr-glx-hybrid"]
              "XR-GLX-HYBRID" 3%nat "xr-glx-hybrid" eq_refl eq_refl)
    as (b & Hp & Hle & _ & Hfirst).
  destruct b as [|[|[|[|b]]]]; try exact Hp; try lia.
  - exfalso. vm_compute in Hp. discriminate Hp.
  - exfalso. vm_compute in Hp. discriminate Hp.
  - exfalso. vm_compute in Hp. discriminate Hp.
Defined.

(** ** Further properties of [parse_kawase_blur_strength] *)

Module BlurChecks.

Lemma returned_in_values level :
  exists v, parse_kawase_blur_strength level = Some (v, logged (parse_kawase_blur_strength level)) /\
    In v values.
Proof.
  destruct (Z_lt_le_dec level 1) as [Hlo|Hlo];
    [|destruct (Z_lt_le_dec 20 level) as [Hhi|Hhi]].
  - destruct (BlurFacts.parse_out_of_range level) as (v & Hv & Hp); [lia|].
    exists v. rewrite Hp. split; [reflexivity|].
    apply list_elem_of_In, list_elem_of_lookup. eauto.
  - destruct (BlurFacts.parse_out_of_range level) as (v & Hv & Hp); [lia|].
    exists v. rewrite Hp. split; [reflexivity|].
    apply list_elem_of_In, list_elem_of_lookup. eauto.
  - destruct (BlurFacts.parse_in_range level) as (v & Hv & Hp); [lia|].
    exists v. rewrite Hp. split; [reflexivity|].
    apply list_elem_of_In, list_elem_of_lookup. eauto.
Qed.

Lemma bounds_checked : forallb blur_bounds_ok values = true.
Proof. vm_compute. reflexivity. Qed.

Lemma groups_checked :
  forallb (fun level => forallb (blur_check_group level) blur_levels)
    blur_levels = true.
Proof. vm_compute. reflexivity. Qed.

Lemma strength_in_range level v :
  1 <= level <= 20 -> blur_result level = Some v -> strength v = level.
Proof.
  intros H Hv. pose proof BlurTable.check_levels as Hall.
  rewrite forallb_forall in Hall.
  specialize (Hall level (BlurFacts.in_levels level H)).
  unfold blur_check_level in Hall. rewrite Hv in Hall.
  apply andb_true_iff in Hall as [Hs _]. apply Z.eqb_eq in Hs. exact Hs.
Qed.

End BlurChecks.

(** X7. The [strength] of a tuple the lookup returns is a level of the
    table, whatever the level asked for, and looking that level up gives
    the same tuple again. *)
Theorem parse_kawase_blur_strength_fixpoint (level : Z) :
  exists v, returns (parse_kawase_blur_strength level) v /\
    1 <= strength v <= 20 /\
    returns (parse_kawase_blur_strength (strength v)) v.
Proof.
  assert (forall l, l < 1 \/ 20 < l ->
            exists v, returns (parse_kawase_blur_strength l) v /\
              1 <= strength v <= 20 /\
              returns (parse_kawase_blur_strength (strength v)) v) as Hout.
  { intros l Hl.
    destruct (BlurFacts.parse_out_of_range l Hl) as (v & Hv & Hp).
    exists v. split; [exists [blur_error_record l]; exact Hp|].
    vm_compute in Hv. injection Hv as <-. simpl.
    split; [lia | eexists; reflexivity]. }
  destruct (Z_lt_le_dec level 1) as [Hlo|Hlo]; [apply Hout; lia|].
  destruct (Z_lt_le_dec 20 level) as [Hhi|Hhi]; [apply Hout; lia|].
  destruct (BlurFacts.parse_in_range level) as (v & Hv & Hp); [lia|].
  assert (strength v = level) as Hs.
  { apply BlurChecks.strength_in_range; [lia|].
    unfold blur_result. rewrite Hp. reflexivity. }
  exists v. rewrite Hs.
  split; [eexists; exact Hp|]. split; [lia | eexists; exact Hp].
Qed.

(** X8. Whatever the level, the tuple returned has between 1 and 5
    iterations, an expand radius between 10 and 400, and an offset that is
    a binary32 number between 1.5 and 10. *)
Theorem parse_kawase_blur_strength_bounds (level : Z) :
  exists v, returns (parse_kawase_blur_strength level) v /\
    1 <= iterations v <= 5 /\ 10 <= expand v <= 400 /\
    valid_binary 24 128 (offset v) = true /\
    SFleb (CFloat.lit32 15 10) (offset v) = true /\
    SFleb (offset v) (CFloat.lit32 100 10) = true.
Proof.
  destruct (BlurChecks.returned_in_values level) as (v & Hp & Hin).
  exists v. split; [eexists; exact Hp|].
  pose proof BlurChecks.bounds_checked as Hall.
  rewrite forallb_forall in Hall. specialize (Hall v Hin).
  unfold blur_bounds_ok in Hall.
  repeat (apply andb_true_iff in Hall as [Hall ?]).
  rewrite !Z.leb_le in *. repeat split; assumption || lia.
Qed.

(** X9. The table is made of groups: of two levels of the table in
    increasing order, either both have the same number of iterations, and
    then the same expand radius and a strictly larger offset at the higher
    level, or the higher level has more iterations and a larger expand
    radius. The offset alone does not grow with the level: it falls from
    one group to the next. *)
Theorem blur_table_groups (level level' : Z) :
  1 <= level -> level < level' -> level' <= 20 ->
  (exists v v',
     returns (parse_kawase_blur_strength level) v /\
     returns (parse_kawase_blur_strength level') v' /\
     (iterations v = iterations v' ->
        expand v = expand v' /\ SFltb (offset v) (offset v') = true) /\
     (iterations v <> iterations v' ->
        iterations v < iterations v' /\ expand v < expand v')) /\
  (exists l l' w w',
     1 <= l /\ l < l' /\ l' <= 20 /\
     returns (parse_kawase_blur_strength l) w /\
     returns (parse_kawase_blur_strength l') w' /\
     SFltb (offset w') (offset w) = true).
Proof.
  intros H1 Hlt H20. split.
  - pose proof BlurChecks.groups_checked as Hall.
    rewrite forallb_forall in Hall.
    specialize (Hall level (BlurFacts.in_levels level ltac:(lia))).
    rewrite forallb_forall in Hall.
    specialize (Hall level' (BlurFacts.in_levels level' ltac:(lia))).
    unfold blur_check_group in Hall.
    destruct (blur_result level) as [v|] eqn:Hv; [|discriminate].
    destruct (blur_result level') as [v'|] eqn:Hv'; [|discriminate].
    exists v, v'.
    split; [apply BlurTable.result_returns; exact Hv|].
    split; [apply BlurTable.result_returns; exact Hv'|].
    apply orb_true_iff in Hall as [Hn|Hg].
    { apply negb_true_iff, Z.ltb_ge in Hn. lia. }
    unfold blur_group_ok in Hg.
    destruct (iterations v =? iterations v') eqn:E.
    + apply Z.eqb_eq in E. apply andb_true_iff in Hg as [He Ho].
      apply Z.eqb_eq in He. split; [auto | intros Hne; contradiction].
    + apply Z.eqb_neq in E. apply andb_true_iff in Hg as [Hi He].
      apply Z.ltb_lt in Hi, He. split; [intros Heq; contradiction | auto].
  - exists 4, 5. eexists _, _.
    split; [lia|]. split; [lia|]. split; [lia|].
    split; [eexists; reflexivity|]. split; [eexists; reflexivity|].
    reflexivity.
Qed.

(** Levels 8 and 9, the end of one group and the start of the next. *)
Lemma blur_table_groups_witness :
  exists v v',
    returns (parse_kawase_blur_strength 8) v /\
    returns (parse_kawase_blur_strength 9) v' /\
    iterations v < iterations v' /\ expand v < expand v'.
Proof.
  destruct (blur_table_groups 8 9) as [(v & v' & Hv & Hv' & _ & Hne) _];
    [lia | lia | lia |].
  exists v, v'. split; [exact Hv|]. split; [exact Hv'|].
  apply Hne. destruct Hv as [l Hl], Hv' as [l' Hl'].
  vm_compute in Hl, Hl'. injection Hl as <- _. injection Hl' as <- _.
  discriminate.
Defined.
